(** * plugin-parsedoc: the record extraction walk of [src/index.ts]

    A shallow embedding of the tree walk that turns a hast document tree
    into search records ([rehypeLyra], [visitChildren], [addRecords],
    [isRecordMergeable], [applyChanges], [populate]) together with the
    properties the specification states about it. *)

From Stdlib Require Import ZArith Ascii DecimalString Lia.
From Stdlib Require String.
From stdpp Require Import base list sorting strings.

(** ** JavaScript strings

    A JavaScript string is a sequence of code units; it is modelled by
    [string], one [ascii] per code unit.  The only operations the source
    uses are concatenation (template literals), [lastIndexOf] with a one
    character needle, [substring] and [slice]; numbers are [Z] because
    [lastIndexOf] answers [-1] when the needle is absent. *)
Module Js.

Definition length (s : string) : Z := Z.of_nat (String.length s).

(** Scan from the left and remember the last position where [needle]
    starts; [acc] is the answer so far. *)
Fixpoint lastIndexOfFrom (needle s : string) (i acc : Z) : Z :=
  let acc' := if String.prefix needle s then i else acc in
  match s with
  | EmptyString => acc'
  | String _ s' => lastIndexOfFrom needle s' (i + 1) acc'
  end.

(** [s.lastIndexOf(needle)]: the index of the last occurrence, [-1] when
    there is none. *)
Definition lastIndexOf (s needle : string) : Z :=
  lastIndexOfFrom needle s 0 (-1).

Definition clamp (x len : Z) : Z := Z.min (Z.max x 0) len.

(** [s.substring(from, to)]: both ends are clamped to [0 .. length] and
    swapped when they are out of order. *)
Definition substring (s : string) (from to : Z) : string :=
  let a := clamp from (length s) in
  let b := clamp to (length s) in
  let lo := Z.min a b in
  let hi := Z.max a b in
  String.substring (Z.to_nat lo) (Z.to_nat (hi - lo)) s.

(** A relative index of [slice]: a negative one counts from the end. *)
Definition relative (x len : Z) : Z :=
  if (x <? 0)%Z then Z.max (len + x) 0 else Z.min x len.

(** [s.slice(from, to)]: negative ends count from the end of the string,
    and an empty string results when the ends are out of order. *)
Definition slice (s : string) (from to : Z) : string :=
  let a := relative from (length s) in
  let b := relative to (length s) in
  String.substring (Z.to_nat a) (Z.to_nat (Z.max (b - a) 0)) s.

(** [`${i}`] for an array index [i]: its decimal digits. *)
Definition ofIndex (i : nat) : string :=
  NilEmpty.string_of_uint (Nat.to_uint i).

(** [s.slice(from)]: from the relative index [from] to the end. *)
Definition sliceFrom (s : string) (from : Z) : string :=
  let a := relative from (length s) in
  String.substring (Z.to_nat a) (Z.to_nat (length s - a)) s.

End Js.

(** Does the character occur in the string? *)
Fixpoint hasChar (c : ascii) (s : string) : bool :=
  match s with
  | EmptyString => false
  | String x s' => if Ascii.eqb c x then true else hasChar c s'
  end.

Definition dot : ascii := "."%char.
Definition bracket : ascii := "["%char.

(** ** Records *)

(** [DefaultSchemaElement].  The [type] of a record is the [tagName] of the
    parent of the text node; the parent of a top-level node is the [Root],
    which has no [tagName], so the field holds [undefined] there: [None]. *)
Record DefaultSchemaElement : Type := mkRecord {
  type : option string;
  content : string;
  id : string;
}.

Inductive MergeStrategy : Type := merge | split | both.

(** [pathWithoutLastIndex]: cut the path at its last opening bracket. *)
Definition pathWithoutLastIndex (path : string) : string :=
  let lastBracket := Js.lastIndexOf path "[" in
  Js.slice path 0 lastBracket.

Definition optionStringEqb (a b : option string) : bool :=
  match a, b with
  | Some x, Some y => String.eqb x y
  | None, None => true
  | _, _ => false
  end.

(** [isRecordMergeable]: the [===] on strings is [String.eqb]. *)
Definition isRecordMergeable (path : string) (tag : option string)
    (records : list DefaultSchemaElement) : bool :=
  if Nat.eqb (List.length records) 0 then false
  else
    match records !! (List.length records - 1)%nat with
    | None => false
    | Some lastRecord =>
        let parentPath := pathWithoutLastIndex path in
        let lastPath := pathWithoutLastIndex (id lastRecord) in
        String.eqb parentPath lastPath && optionStringEqb tag (type lastRecord)
    end.

(** [const parentPath = path.substring(0, path.lastIndexOf("."))]. *)
Definition parentPathOf (path : string) : string :=
  Js.substring path 0 (Js.lastIndexOf path ".").

(** [const newRecord = { type, content, id: parentPath }]. *)
Definition newRecordOf (content : string) (type : option string)
    (path : string) : DefaultSchemaElement :=
  mkRecord type content (parentPathOf path).

(** The record after [record.content += ` ${content}`]. *)
Definition withMoreContent (more : string) (r : DefaultSchemaElement)
    : DefaultSchemaElement :=
  mkRecord (type r) (content r +:+ " " +:+ more) (id r).

(** [addContentToLastRecord]: the source calls it on a non-empty array
    only (behind [isRecordMergeable]); on an empty list [alter] changes
    nothing. *)
Definition addContentToLastRecord (records : list DefaultSchemaElement)
    (content : string) : list DefaultSchemaElement :=
  alter (withMoreContent content) (List.length records - 1)%nat records.

(** [records.splice(records.length - 1, 0, r)]: [r] goes in just before the
    last element (at the front when the array is empty). *)
Definition spliceBeforeLast (records : list DefaultSchemaElement)
    (r : DefaultSchemaElement) : list DefaultSchemaElement :=
  take (List.length records - 1)%nat records ++ r :: drop (List.length records - 1)%nat records.

(** [addRecords].  The array is mutated in place in the source; every
    object is stored in it once ([push(newRecord, { ...newRecord })] stores
    a copy), so no two slots alias and the list of values is the state. *)
Definition addRecords (content : string) (type : option string)
    (path : string) (records : list DefaultSchemaElement)
    (mergeStrategy : MergeStrategy) : list DefaultSchemaElement :=
  let parentPath := parentPathOf path in
  let newRecord := mkRecord type content parentPath in
  match mergeStrategy with
  | merge =>
      if negb (isRecordMergeable parentPath type records)
      then records ++ [newRecord]
      else addContentToLastRecord records content
  | split => records ++ [newRecord]
  | both =>
      if negb (isRecordMergeable parentPath type records)
      then records ++ [newRecord; newRecord]
      else addContentToLastRecord (spliceBeforeLast records newRecord) content
  end.

(** ** The document tree (hast) *)

#[local] Set Warnings "-register-all".

(** The nodes below the root of a hast tree ([Content]).  Only [tagName],
    [children] and [value] are read by the walk; the properties of an
    element are seen by the serializer alone, which is a collaborator (see
    [Hast]). *)
Inductive Content : Type :=
| element (tagName : string) (children : list Content)
| text (value : string)
| comment (value : string)
| doctype.

(** The [Root] of a tree: it has children and no [tagName]. *)
Record Root : Type := root { rootChildren : list Content }.

(** The [parent] argument of [visitChildren]: the root or an element. *)
Inductive Parent : Type :=
| ofRoot (tree : Root)
| ofElement (node : Content).

(** [node.tagName], [undefined] (here [None]) on a node that has none. *)
Definition tagNameOf (n : Content) : option string :=
  match n with
  | element t _ => Some t
  | _ => None
  end.

(** [(parent as Element).tagName]: [undefined] when the parent is the
    root. *)
Definition parentTagName (parent : Parent) : option string :=
  match parent with
  | ofRoot _ => None
  | ofElement n => tagNameOf n
  end.

(** [node.tagName = tag] on an element. *)
Definition withTagName (tag : string) (n : Content) : Content :=
  match n with
  | element _ cs => element tag cs
  | other => other
  end.

Module NodeContent.
Record t : Type := mk { tag : string; raw : string; content : string }.
End NodeContent.

Definition TransformFn : Type := NodeContent.t -> NodeContent.t.

Record PopulateOptions : Type := mkOptions {
  transformFn : option TransformFn;
  mergeStrategy : option MergeStrategy;
  basePath : option string;
}.

(** [options?.mergeStrategy ?? "merge"], [options?.basePath ?? ""] and
    [options?.transformFn] when it is a function. *)
Definition strategyOf (options : option PopulateOptions) : MergeStrategy :=
  default merge (options ≫= mergeStrategy).

Definition basePathOf (options : option PopulateOptions) : string :=
  default "" (options ≫= basePath).

Definition transformFnOf (options : option PopulateOptions) : option TransformFn :=
  options ≫= transformFn.

(** The functions of the hast utility packages and of the unified
    pipelines the module calls; they are collaborators, not code of this
    repository, and the walk is stated for any of them.
    [fromHtml raw] stands for [fromHtml(raw, { fragment: true }).children],
    [htmlTree] for parsing and minifying an HTML document, [markdownTree]
    for the Markdown pipeline up to the record extraction. *)
Class Hast : Type := {
  toHtml : Content -> string;
  fromHtml : string -> list Content;
  toString : Content -> string;
  fromString : Content -> string -> Content;
  htmlTree : string -> Root;
  markdownTree : string -> Root;
}.

(** How a call ends: normally, by a [TypeError] (reading [children] of
    [undefined], or [forEach] of an [undefined] [children]), or, in the
    model only, by running out of recursion depth. *)
Inductive Completion : Type := Normal | TypeError | OutOfFuel.

(** [array.forEach((x, i) => ...)] over a body that updates the records
    and may throw; [forEachFrom] starts counting at [i]. *)
Fixpoint forEachFrom {A S : Type} (body : A -> nat -> S -> S * Completion)
    (xs : list A) (i : nat) (s : S) : S * Completion :=
  match xs with
  | [] => (s, Normal)
  | x :: xs' =>
      match body x i s with
      | (s', Normal) => forEachFrom body xs' (Datatypes.S i) s'
      | stop => stop
      end
  end.

Definition forEach {A S : Type} (body : A -> nat -> S -> S * Completion)
    (xs : list A) (s : S) : S * Completion :=
  forEachFrom body xs 0%nat s.

(** The path of the child at index [i] of the element visited at [path]
    under tag [tagName]: [`${path}.${tagName}[${i}]`]. *)
Definition childPath (path tagName : string) (i : nat) : string :=
  path +:+ "." +:+ tagName +:+ "[" +:+ Js.ofIndex i +:+ "]".

(** The path of the top-level child at index [i]:
    [`${options?.basePath ?? ""}root[${i}]`]. *)
Definition rootPath (options : option PopulateOptions) (i : nat) : string :=
  basePathOf options +:+ "root[" +:+ Js.ofIndex i +:+ "]".

Section Walk.
Context `{Hast}.

Definition prepareNode (node : Content) : NodeContent.t :=
  let tag := default "" (tagNameOf node) in
  let content := toString node in
  let raw := toHtml node in
  NodeContent.mk tag raw content.

(** [applyChanges]; the result is [None] when
    [fromHtml(...).children[0]] is [undefined]. *)
Definition applyChanges (node : Content) (transformedNode : NodeContent.t)
    : option Content :=
  if negb (String.eqb (toHtml node) (NodeContent.raw transformedNode))
  then head (fromHtml (NodeContent.raw transformedNode))
  else
    let node := withTagName (NodeContent.tag transformedNode) node in
    if negb (String.eqb (toString node) (NodeContent.content transformedNode))
    then Some (fromString node (NodeContent.content transformedNode))
    else Some node.

Definition applyTransform (node : Content) (transformFn : TransformFn)
    : option Content :=
  let preparedNode := prepareNode node in
  let transformedNode := transformFn preparedNode in
  applyChanges node transformedNode.

(** [transformedNode] of [visitChildren]. *)
Definition transformedOf (options : option PopulateOptions) (node : Content)
    : option Content :=
  match transformFnOf options with
  | Some f => applyTransform node f
  | None => Some node
  end.

(** [visitChildren].  A transform may hand back a subtree that is not
    part of the node it was given, so the recursion is bounded by
    [fuel], the depth of calls it may use. *)
Fixpoint visitChildren (fuel : nat) (node : Content) (parent : Parent)
    (path : string)
    (records : list DefaultSchemaElement)
    (options : option PopulateOptions)
    : list DefaultSchemaElement * Completion :=
  match fuel with
  | O => (records, OutOfFuel)
  | Datatypes.S fuel' =>
      match node with
      | text value =>
          (addRecords value (parentTagName parent) path records
             (strategyOf options),
           Normal)
      | element _ _ =>
          match transformedOf options node with
          | Some (element tagName children as transformedNode) =>
              forEach
                (fun child i records =>
                   visitChildren fuel' child (ofElement transformedNode)
                     (childPath path tagName i) records options)
                children records
          | _ => (records, TypeError)
          end
      | _ => (records, Normal)
      end
  end.

(** The transformer [rehypeLyra(records, options)] applied to [tree]. *)
Definition rehypeLyra (fuel : nat) (records : list DefaultSchemaElement)
    (options : option PopulateOptions) (tree : Root)
    : list DefaultSchemaElement * Completion :=
  forEach
    (fun child i records =>
       visitChildren fuel child (ofRoot tree) (rootPath options i) records
         options)
    (rootChildren tree) records.

(** What a call of [populate] comes to. *)
Inductive PopulateOutcome : Type :=
| InsertBatch (records : list DefaultSchemaElement)
    (** [insertBatch(db, records)] is called and its promise returned *)
| ResolvedWith (fileType : string)
    (** the promise resolves with [fileType]; nothing is inserted *)
| Rejected
    (** the awaited pipeline threw; nothing is inserted *)
| Unfinished.
    (** the model ran out of fuel *)

(** [populate].  In the ["md"] case the pipeline is awaited, so a throw
    of the walk rejects the call; in the ["html"] case the promise of
    [process] is dropped, so the records gathered up to a throw are
    inserted. *)
Definition populate (fuel : nat) (data fileType : string)
    (options : option PopulateOptions) : PopulateOutcome :=
  let records := [] in
  if String.eqb fileType "md" then
    match rehypeLyra fuel records options (markdownTree data) with
    | (records, Normal) => InsertBatch records
    | (_, TypeError) => Rejected
    | (_, OutOfFuel) => Unfinished
    end
  else if String.eqb fileType "html" then
    match rehypeLyra fuel records options (htmlTree data) with
    | (_, OutOfFuel) => Unfinished
    | (records, _) => InsertBatch records
    end
  else ResolvedWith fileType.

End Walk.

(** ** A small instance of the collaborators

    Enough of the hast utilities to run the walk on concrete trees:
    [toString] joins the text of the descendants, [fromString] replaces
    the children by one text node, the serializer prints tags and text,
    and the parsers are finite tables. *)
Module Example.

Fixpoint textOf (n : Content) : string :=
  let fix all (ns : list Content) : string :=
    match ns with
    | [] => ""
    | n :: ns' => textOf n +:+ all ns'
    end in
  match n with
  | element _ cs => all cs
  | text v => v
  | _ => ""
  end.

Fixpoint serialize (n : Content) : string :=
  let fix all (ns : list Content) : string :=
    match ns with
    | [] => ""
    | n :: ns' => serialize n +:+ all ns'
    end in
  match n with
  | element t cs => "<" +:+ t +:+ ">" +:+ all cs +:+ "</" +:+ t +:+ ">"
  | text v => v
  | comment v => "<!--" +:+ v +:+ "-->"
  | doctype => "<!doctype html>"
  end.

Definition setText (n : Content) (value : string) : Content :=
  let kids := if String.eqb value "" then [] else [text value] in
  match n with
  | element t _ => element t kids
  | text _ => text value
  | comment _ => comment value
  | doctype => doctype
  end.

Fixpoint lookupTable {A : Type} (table : list (string * A)) (key : string)
    : option A :=
  match table with
  | [] => None
  | (k, v) :: table' => if String.eqb k key then Some v else lookupTable table' key
  end.

Definition hast (fragments : list (string * list Content))
    (documents : list (string * Root)) : Hast :=
  {| toHtml := serialize;
     fromHtml := fun raw => default [] (lookupTable fragments raw);
     toString := textOf;
     fromString := setText;
     htmlTree := fun data => default (root []) (lookupTable documents data);
     markdownTree := fun data => default (root []) (lookupTable documents data) |}.

(** [<div><p>A</p><p>B</p></div>]: two paragraphs in one container. *)
Definition twoParagraphs : Root :=
  root [element "div" [element "p" [text "A"]; element "p" [text "B"]]].

(** Three elements, the middle one of another tag. *)
Definition itemInBetween : Root :=
  root [element "div"
          [element "p" [text "A"]; element "h2" [text "X"]; element "p" [text "B"]]].

(** Two paragraphs in two containers. *)
Definition differentContainers : Root :=
  root [element "div" [element "section" [element "p" [text "A"]];
                       element "article" [element "p" [text "B"]]]].

(** A document with a title, as the parser hands it over. *)
Definition titled : Root :=
  root [doctype;
        element "html"
          [element "head" [element "meta" []; element "title" [text "Test"]];
           element "body" []]].

(** A heading in a body. *)
Definition heading : Root :=
  root [element "html" [element "head" []; element "body" [element "h1" [text "Heading"]]]].

Definition withStrategy (s : MergeStrategy) : option PopulateOptions :=
  Some (mkOptions None (Some s) None).

(** The transforms of the tests: rename, rewrite or replace the heading. *)
Definition onH1 (change : NodeContent.t -> NodeContent.t) : TransformFn :=
  fun node => if String.eqb (NodeContent.tag node) "h1" then change node else node.

Definition renameH1 : TransformFn :=
  onH1 (fun node =>
          NodeContent.mk "h2" (NodeContent.raw node) (NodeContent.content node)).

(** The rename of the test with a tag name that has a dot:
    [node.tag === "h1" ? { ...node, tag: "x.y" } : node]. *)
Definition dotH1 : TransformFn :=
  onH1 (fun node =>
          NodeContent.mk "x.y" (NodeContent.raw node) (NodeContent.content node)).

Definition rewriteH1 : TransformFn :=
  onH1 (fun node =>
          NodeContent.mk (NodeContent.tag node) (NodeContent.raw node) "New content").

Definition replaceH1 : TransformFn :=
  onH1 (fun _ => NodeContent.mk "h2" "<div><p>Hello</p></div>" "New content").

Definition fragments : list (string * list Content) :=
  [("<div><p>Hello</p></div>", [element "div" [element "p" [text "Hello"]]])].

(** The collaborators with the one fragment the tests parse. *)
Definition lib : Hast := hast fragments [].

Definition withTransform (f : TransformFn) : option PopulateOptions :=
  Some (mkOptions (Some f) None (Some "tests/fixtures/h1.html/")).

End Example.

(** ** The walk as a sequence of calls

    The same recursion as [visitChildren], listing the calls instead of
    updating the records: which node is visited, under which parent, with
    which path.  The records of a walk are recovered from the text nodes of
    this list (see [visitChildren_calls]). *)
Record Call : Type := mkCall {
  callNode : Content;
  callParent : Parent;
  callPath : string;
}.

(** One call of [addRecords]: the text, the tag and the path it is given. *)
Record Visit : Type := mkVisit {
  visitValue : string;
  visitTag : option string;
  visitPath : string;
}.

Definition visitOf (c : Call) : option Visit :=
  match callNode c with
  | text value => Some (mkVisit value (parentTagName (callParent c)) (callPath c))
  | _ => None
  end.

(** The calls of [addRecords] among the calls of [visitChildren]. *)
Definition textVisits (cs : list Call) : list Visit := omap visitOf cs.

Definition addVisit (mergeStrategy : MergeStrategy)
    (records : list DefaultSchemaElement) (v : Visit) : list DefaultSchemaElement :=
  addRecords (visitValue v) (visitTag v) (visitPath v) records mergeStrategy.

(** The records after a sequence of calls of [addRecords]. *)
Definition addVisits (mergeStrategy : MergeStrategy) (vs : list Visit)
    (records : list DefaultSchemaElement) : list DefaultSchemaElement :=
  foldl (addVisit mergeStrategy) records vs.

(** The body of a [forEach] that lists calls: the calls below the element
    [x] at index [i] come after the ones seen so far. *)
Definition collecting {A : Type} (below : A -> nat -> list Call * Completion)
    (x : A) (i : nat) (seen : list Call) : list Call * Completion :=
  (seen ++ fst (below x i), snd (below x i)).

Section Calls.
Context `{Hast}.

Fixpoint calls (fuel : nat) (node : Content) (parent : Parent) (path : string)
    (options : option PopulateOptions) : list Call * Completion :=
  match fuel with
  | O => ([], OutOfFuel)
  | Datatypes.S fuel' =>
      let here := mkCall node parent path in
      match node with
      | text _ => ([here], Normal)
      | element _ _ =>
          match transformedOf options node with
          | Some (element tagName children as transformedNode) =>
              forEach
                (collecting
                   (fun child i =>
                      calls fuel' child (ofElement transformedNode)
                        (childPath path tagName i) options))
                children [here]
          | _ => ([here], TypeError)
          end
      | _ => ([here], Normal)
      end
  end.

Definition rehypeLyraCalls (fuel : nat) (options : option PopulateOptions)
    (tree : Root) : list Call * Completion :=
  forEach
    (collecting
       (fun child i => calls fuel child (ofRoot tree) (rootPath options i) options))
    (rootChildren tree) [].

End Calls.

(** The call [c] is made for a child of the (transformed) element of the
    call [p]. *)
Definition childCallOf `{Hast} (options : option PopulateOptions)
    (p c : Call) : Prop :=
  exists (tagName : string) (children : list Content) (i : nat),
    tagNameOf (callNode p) <> None /\
    transformedOf options (callNode p) = Some (element tagName children) /\
    children !! i = Some (callNode c) /\
    callParent c = ofElement (element tagName children) /\
    callPath c = callPath p +:+ "." +:+ tagName +:+ "[" +:+ Js.ofIndex i +:+ "]".

(** ** Measures of a tree *)

(** The number of text nodes of a tree. *)
Fixpoint countText (n : Content) : nat :=
  let fix all (ns : list Content) : nat :=
    match ns with
    | [] => 0
    | n :: ns' => countText n + all ns'
    end in
  match n with
  | element _ cs => all cs
  | text _ => 1
  | _ => 0
  end.

(** The number of text nodes below the root. *)
Definition rootCountText (tree : Root) : nat :=
  sum_list (countText <$> rootChildren tree).

(** The number of levels of a tree: a leaf has one. *)
Fixpoint height (n : Content) : nat :=
  let fix all (ns : list Content) : nat :=
    match ns with
    | [] => 0
    | n :: ns' => Nat.max (height n) (all ns')
    end in
  match n with
  | element _ cs => Datatypes.S (all cs)
  | _ => 1
  end.

(** The number of levels below the root. *)
Definition rootHeight (tree : Root) : nat :=
  max_list (height <$> rootChildren tree).

(** ** Where the content of a record comes from

    Next to the records, the positions (in the sequence of calls of
    [addRecords]) of the text nodes whose text each record holds.  The list
    is updated the way [addRecords] updates the records; [mergeable] is the
    answer of [isRecordMergeable] on the records at that call. *)
Definition addOrigin (k : nat) (mergeable : bool) (mergeStrategy : MergeStrategy)
    (origins : list (list nat)) : list (list nat) :=
  let n := List.length origins in
  match mergeStrategy with
  | merge =>
      if negb mergeable then origins ++ [[k]]
      else alter (fun o => o ++ [k]) (n - 1)%nat origins
  | split => origins ++ [[k]]
  | both =>
      if negb mergeable then origins ++ [[k]; [k]]
      else alter (fun o => o ++ [k]) n
             (take (n - 1)%nat origins ++ [k] :: drop (n - 1)%nat origins)
  end.

(** Records and origins after the calls [vs], the first of which has
    position [k]. *)
Fixpoint addVisitsFrom (mergeStrategy : MergeStrategy) (vs : list Visit) (k : nat)
    (state : list DefaultSchemaElement * list (list nat))
    : list DefaultSchemaElement * list (list nat) :=
  match vs with
  | [] => state
  | v :: vs' =>
      let '(records, origins) := state in
      let mergeable :=
        isRecordMergeable (parentPathOf (visitPath v)) (visitTag v) records in
      addVisitsFrom mergeStrategy vs' (Datatypes.S k)
        (addVisit mergeStrategy records v,
         addOrigin k mergeable mergeStrategy origins)
  end.

Definition originsOf (mergeStrategy : MergeStrategy) (vs : list Visit)
    : list (list nat) :=
  snd (addVisitsFrom mergeStrategy vs 0 ([], [])).

(** The texts at the positions [o], joined by single spaces. *)
Definition joined (vs : list Visit) (o : list nat) : string :=
  String.concat " " (omap (fun k => visitValue <$> vs !! k) o).

(** The record [r] holds the texts at the positions [o]: its content is
    these texts in the order of the visits, joined by spaces, and its type
    and id are those of the new record of the first of them. *)
Definition explains (vs : list Visit) (r : DefaultSchemaElement)
    (o : list nat) : Prop :=
  content r = joined vs o
  /\ StronglySorted lt o
  /\ Forall (fun a => a < length vs) o
  /\ exists (first : nat) (v : Visit),
       head o = Some first /\ vs !! first = Some v /\
       type r = visitTag v /\ id r = parentPathOf (visitPath v).

(** All the text nodes of [o1] are visited before all those of [o2]. *)
Definition inVisitOrder (o1 o2 : list nat) : Prop :=
  forall a b, a ∈ o1 -> b ∈ o2 -> a < b.

(** The text nodes of [o1] are among those of [o2]. *)
Definition partOf (o1 o2 : list nat) : Prop :=
  forall a, a ∈ o1 -> a ∈ o2.

Definition ordered (o1 o2 : list nat) : Prop :=
  inVisitOrder o1 o2 \/ partOf o1 o2.

(** The texts of the text nodes of a tree, in document order. *)
Fixpoint textsOf (n : Content) : list string :=
  let fix all (ns : list Content) : list string :=
    match ns with
    | [] => []
    | n :: ns' => textsOf n ++ all ns'
    end in
  match n with
  | element _ cs => all cs
  | text value => [value]
  | _ => []
  end.

Definition rootTexts (tree : Root) : list string :=
  rootChildren tree ≫= textsOf.

(** ** Populating from a file *)

(** [filename.slice(filename.lastIndexOf(".") + 1)]: what follows the last
    dot of the file name. *)
Definition fileTypeOf (filename : string) : string :=
  Js.sliceFrom filename (Js.lastIndexOf filename "." + 1).

Section FromFile.
Context `{Hast}.

(** [readFile] of [node:fs/promises] is a collaborator: the content of the
    file, or [None] when reading fails. *)
Variable readFile : string -> option string.

(** [populateFromFile]: the file type is taken from the name, and the
    options are the caller's with [basePath] set to the file name and a
    slash ([{ ...options, basePath }]). *)
Definition populateFromFile (fuel : nat) (filename : string)
    (options : option PopulateOptions) : PopulateOutcome :=
  match readFile filename with
  | None => Rejected
  | Some data =>
      let fileType := fileTypeOf filename in
      populate fuel data fileType
        (Some (mkOptions (options ≫= transformFn) (options ≫= mergeStrategy)
                 (Some (filename +:+ "/"))))
  end.

End FromFile.

(** * Properties *)

(** ** Strings *)

Lemma string_app_nil (b : string) : "" +:+ b = b.
Proof. reflexivity. Qed.

Lemma string_app_cons (x : ascii) (a b : string) :
  String x a +:+ b = String x (a +:+ b).
Proof. reflexivity. Qed.

Lemma string_app_nil_r (s : string) : s +:+ "" = s.
Proof. induction s as [|x s IH]; [done|]. by rewrite string_app_cons, IH. Qed.

Lemma hasChar_app (c : ascii) (a b : string) :
  hasChar c (a +:+ b) = hasChar c a || hasChar c b.
Proof.
  induction a as [|x a IH]; simpl; [done|].
  destruct (Ascii.eqb c x); simpl; auto.
Qed.

Lemma string_length_app (a b : string) :
  String.length (a +:+ b) = (String.length a + String.length b)%nat.
Proof. induction a as [|x a IH]; simpl; auto. Qed.

Lemma app_assoc_string (a b c : string) : (a +:+ b) +:+ c = a +:+ b +:+ c.
Proof.
  induction a as [|x a IH]; [done|]. by rewrite !string_app_cons, IH.
Qed.

Lemma prefix_char (c : ascii) (s : string) :
  String.prefix (String c "") s =
  match s with
  | EmptyString => false
  | String x _ => Ascii.eqb c x
  end.
Proof.
  destruct s as [|x s]; simpl; [done|].
  destruct (ascii_dec c x) as [->|Hne].
  - rewrite Ascii.eqb_refl. by destruct s.
  - symmetry. by apply Ascii.eqb_neq.
Qed.

Lemma lastIndexOfFrom_absent (c : ascii) (s : string) (i acc : Z) :
  hasChar c s = false ->
  Js.lastIndexOfFrom (String c "") s i acc = acc.
Proof.
  revert i acc. induction s as [|x s IH]; intros i acc Hs.
  - done.
  - cbn [Js.lastIndexOfFrom]. rewrite prefix_char.
    simpl in Hs. destruct (Ascii.eqb c x); [done|]. by apply IH.
Qed.

Lemma lastIndexOfFrom_last (c : ascii) (a b : string) (i acc : Z) :
  hasChar c b = false ->
  Js.lastIndexOfFrom (String c "") (a +:+ String c b) i acc
  = (i + Z.of_nat (String.length a))%Z.
Proof.
  intros Hb. revert i acc. induction a as [|x a IH]; intros i acc.
  - rewrite string_app_nil. cbn [Js.lastIndexOfFrom].
    rewrite prefix_char, Ascii.eqb_refl.
    rewrite lastIndexOfFrom_absent by done. simpl. lia.
  - rewrite string_app_cons. cbn [Js.lastIndexOfFrom]. rewrite IH.
    simpl String.length. lia.
Qed.

Lemma lastIndexOf_absent (c : ascii) (s : string) :
  hasChar c s = false -> Js.lastIndexOf s (String c "") = (-1)%Z.
Proof. apply lastIndexOfFrom_absent. Qed.

Lemma lastIndexOf_last (c : ascii) (a b : string) :
  hasChar c b = false ->
  Js.lastIndexOf (a +:+ String c b) (String c "") = Z.of_nat (String.length a).
Proof. intros Hb. unfold Js.lastIndexOf. by rewrite lastIndexOfFrom_last. Qed.

Lemma substring_0_0 (s : string) : String.substring 0 0 s = "".
Proof. by destruct s. Qed.

Lemma substring_prefix (a b : string) :
  String.substring 0 (String.length a) (a +:+ b) = a.
Proof.
  induction a as [|x a IH].
  - apply substring_0_0.
  - rewrite string_app_cons. simpl. by rewrite IH.
Qed.

(** [s.substring(0, -1)] is empty, [s.substring(0, n)] is the prefix of
    length [n]. *)
Lemma substring_to_minus_one (s : string) : Js.substring s 0 (-1) = "".
Proof.
  unfold Js.substring, Js.clamp, Js.length.
  replace (Z.min (Z.min (Z.max 0 0) _) (Z.min (Z.max (-1) 0) _)) with 0%Z by lia.
  replace (Z.max (Z.min (Z.max 0 0) _) (Z.min (Z.max (-1) 0) _)) with 0%Z by lia.
  apply substring_0_0.
Qed.

Lemma substring_to_length (a b : string) :
  Js.substring (a +:+ b) 0 (Z.of_nat (String.length a)) = a.
Proof.
  unfold Js.substring, Js.clamp, Js.length. rewrite string_length_app.
  set (n := String.length a). set (m := String.length b).
  replace (Z.min (Z.min (Z.max 0 0) _) (Z.min (Z.max (Z.of_nat n) 0) _)) with 0%Z by lia.
  replace (Z.max (Z.min (Z.max 0 0) _) (Z.min (Z.max (Z.of_nat n) 0) _))
    with (Z.of_nat n) by lia.
  rewrite Z.sub_0_r, Nat2Z.id. apply substring_prefix.
Qed.

Lemma slice_to_length (a b : string) :
  Js.slice (a +:+ b) 0 (Z.of_nat (String.length a)) = a.
Proof.
  unfold Js.slice, Js.relative, Js.length. rewrite string_length_app.
  set (n := String.length a). set (m := String.length b).
  destruct (Z.ltb_spec (Z.of_nat n) 0); [lia|]. simpl (0 <? 0)%Z. cbv iota.
  replace (Z.min 0 _) with 0%Z by lia.
  replace (Z.max (Z.min (Z.of_nat n) _ - 0) 0) with (Z.of_nat n) by lia.
  rewrite Nat2Z.id. apply substring_prefix.
Qed.

(** The parent path of a path that ends in [.rest], [rest] free of dots. *)
Lemma parentPathOf_dotted (a rest : string) :
  hasChar dot rest = false -> parentPathOf (a +:+ "." +:+ rest) = a.
Proof.
  intros Hrest. unfold parentPathOf.
  change (Js.lastIndexOf (a +:+ "." +:+ rest) ".")
    with (Js.lastIndexOf (a +:+ String dot rest) (String dot "")).
  rewrite lastIndexOf_last by done. apply substring_to_length.
Qed.

Lemma parentPathOf_dotless (s : string) :
  hasChar dot s = false -> parentPathOf s = "".
Proof.
  intros Hs. unfold parentPathOf.
  rewrite (lastIndexOf_absent dot) by done. apply substring_to_minus_one.
Qed.

(** What [pathWithoutLastIndex] keeps of a path that ends in an index. *)
Lemma pathWithoutLastIndex_indexed (a rest : string) :
  hasChar bracket rest = false -> pathWithoutLastIndex (a +:+ "[" +:+ rest) = a.
Proof.
  intros Hrest. unfold pathWithoutLastIndex.
  change (Js.lastIndexOf (a +:+ "[" +:+ rest) "[")
    with (Js.lastIndexOf (a +:+ String bracket rest) (String bracket "")).
  rewrite lastIndexOf_last by done. apply slice_to_length.
Qed.

(** On a path without a bracket [lastIndexOf] answers [-1] and
    [slice(0, -1)] drops the last character. *)
Lemma pathWithoutLastIndex_no_bracket (a : string) (c : ascii) :
  hasChar bracket (a +:+ String c "") = false ->
  pathWithoutLastIndex (a +:+ String c "") = a.
Proof.
  intros Hno. unfold pathWithoutLastIndex.
  rewrite (lastIndexOf_absent bracket) by done.
  unfold Js.slice, Js.relative, Js.length. rewrite string_length_app.
  cbn [String.length]. set (n := String.length a).
  change (0 <? 0)%Z with false. change (-1 <? 0)%Z with true. cbv iota.
  replace (Z.to_nat (Z.min 0 _)) with 0%nat by lia.
  replace (Z.to_nat _) with n by lia.
  apply substring_prefix.
Qed.

Lemma hasChar_string_of_uint (c : ascii) (u : Decimal.uint) :
  hasChar c "0123456789" = false ->
  hasChar c (NilEmpty.string_of_uint u) = false.
Proof.
  intros Hc. simpl in Hc.
  induction u as [|u IH|u IH|u IH|u IH|u IH|u IH|u IH|u IH|u IH|u IH]; simpl;
    [done|..];
    repeat match type of Hc with
           | (if ?b then true else _) = false => destruct b eqn:?; [done|]
           end; done.
Qed.

Lemma hasChar_ofIndex (c : ascii) (i : nat) :
  hasChar c "0123456789" = false -> hasChar c (Js.ofIndex i) = false.
Proof. apply hasChar_string_of_uint. Qed.

(** ** The last record *)

Lemma optionStringEqb_eq (a b : option string) :
  optionStringEqb a b = true <-> a = b.
Proof.
  destruct a as [x|], b as [y|]; simpl; try (split; congruence).
  rewrite String.eqb_eq. split; congruence.
Qed.

Lemma last_index_snoc {A : Type} (init : list A) (x : A) :
  (length (init ++ [x]) - 1 = length init)%nat.
Proof. rewrite length_app. simpl. lia. Qed.

Lemma snoc_of_last {A : Type} (l : list A) (x : A) :
  last l = Some x -> exists init, l = init ++ [x].
Proof.
  destruct l as [|y l] using rev_ind; [done|].
  rewrite last_snoc. intros [= ->]. by exists l.
Qed.

Lemma isRecordMergeable_snoc (path : string) (tag : option string)
    (init : list DefaultSchemaElement) (lastRecord : DefaultSchemaElement) :
  isRecordMergeable path tag (init ++ [lastRecord]) =
  String.eqb (pathWithoutLastIndex path) (pathWithoutLastIndex (id lastRecord))
  && optionStringEqb tag (type lastRecord).
Proof.
  unfold isRecordMergeable.
  rewrite last_index_snoc, list_lookup_middle by done.
  rewrite length_app. simpl.
  by replace (length init + 1)%nat with (S (length init)) by lia.
Qed.

Lemma addContentToLastRecord_snoc (init : list DefaultSchemaElement)
    (lastRecord : DefaultSchemaElement) (more : string) :
  addContentToLastRecord (init ++ [lastRecord]) more
  = init ++ [withMoreContent more lastRecord].
Proof.
  unfold addContentToLastRecord. rewrite last_index_snoc.
  rewrite alter_app_r_alt by lia. by rewrite Nat.sub_diag.
Qed.

Lemma spliceBeforeLast_snoc (init : list DefaultSchemaElement)
    (lastRecord r : DefaultSchemaElement) :
  spliceBeforeLast (init ++ [lastRecord]) r = (init ++ [r]) ++ [lastRecord].
Proof.
  unfold spliceBeforeLast. rewrite last_index_snoc.
  rewrite take_app_length, drop_app_length. by rewrite <- app_assoc.
Qed.

(** ** One call of [addRecords] *)

Lemma addRecords_split (content : string) (tag : option string) (path : string)
    (records : list DefaultSchemaElement) :
  addRecords content tag path records split
  = records ++ [newRecordOf content tag path].
Proof. reflexivity. Qed.

Lemma addRecords_merge_new (content : string) (tag : option string)
    (path : string) (records : list DefaultSchemaElement) :
  isRecordMergeable (parentPathOf path) tag records = false ->
  addRecords content tag path records merge
  = records ++ [newRecordOf content tag path].
Proof. intros Hm. unfold addRecords. by rewrite Hm. Qed.

Lemma addRecords_merge_last (content : string) (tag : option string)
    (path : string) (init : list DefaultSchemaElement)
    (lastRecord : DefaultSchemaElement) :
  isRecordMergeable (parentPathOf path) tag (init ++ [lastRecord]) = true ->
  addRecords content tag path (init ++ [lastRecord]) merge
  = init ++ [withMoreContent content lastRecord].
Proof.
  intros Hm. unfold addRecords. rewrite Hm. simpl.
  apply addContentToLastRecord_snoc.
Qed.

Lemma addRecords_both_new (content : string) (tag : option string)
    (path : string) (records : list DefaultSchemaElement) :
  isRecordMergeable (parentPathOf path) tag records = false ->
  addRecords content tag path records both
  = records ++ [newRecordOf content tag path; newRecordOf content tag path].
Proof. intros Hm. unfold addRecords. by rewrite Hm. Qed.

Lemma addRecords_both_last (content : string) (tag : option string)
    (path : string) (init : list DefaultSchemaElement)
    (lastRecord : DefaultSchemaElement) :
  isRecordMergeable (parentPathOf path) tag (init ++ [lastRecord]) = true ->
  addRecords content tag path (init ++ [lastRecord]) both
  = init ++ [newRecordOf content tag path; withMoreContent content lastRecord].
Proof.
  intros Hm. unfold addRecords. rewrite Hm. simpl.
  rewrite spliceBeforeLast_snoc, addContentToLastRecord_snoc.
  by rewrite <- app_assoc.
Qed.

(** A mergeable call finds a last record. *)
Lemma isRecordMergeable_last (path : string) (tag : option string)
    (records : list DefaultSchemaElement) :
  isRecordMergeable path tag records = true ->
  exists init lastRecord, records = init ++ [lastRecord].
Proof.
  destruct records as [|r records] using rev_ind; [done|]. eauto.
Qed.

(** C1: [isRecordMergeable] answers true exactly when there is a last
    record, the tag is the type of that record, and the path and the id of
    that record agree once [pathWithoutLastIndex] has stripped them; on a
    path that ends in an index, [pathWithoutLastIndex] removes exactly that
    trailing bracketed index. *)
Theorem isRecordMergeable_iff :
  (forall (path : string) (tag : option string)
          (records : list DefaultSchemaElement),
      isRecordMergeable path tag records = true <->
      records <> [] /\
      exists lastRecord,
        last records = Some lastRecord /\
        tag = type lastRecord /\
        pathWithoutLastIndex path = pathWithoutLastIndex (id lastRecord))
  /\ (forall (prefix : string) (i : nat),
         pathWithoutLastIndex (prefix +:+ "[" +:+ Js.ofIndex i +:+ "]") = prefix).
Proof.
  split.
  - intros path tag records. split.
    + intros Hm. destruct (isRecordMergeable_last _ _ _ Hm) as (init & l & ->).
      rewrite isRecordMergeable_snoc in Hm.
      apply andb_true_iff in Hm as [Hp Ht].
      split; [by destruct init|]. exists l. rewrite last_snoc.
      by apply String.eqb_eq in Hp; apply optionStringEqb_eq in Ht.
    + intros (Hne & l & Hl & Ht & Hp).
      destruct (snoc_of_last _ _ Hl) as [init ->].
      rewrite isRecordMergeable_snoc. apply andb_true_iff. split.
      * by apply String.eqb_eq.
      * by apply optionStringEqb_eq.
  - intros prefix i. apply pathWithoutLastIndex_indexed.
    rewrite hasChar_app, hasChar_ofIndex by done. done.
Qed.

Lemma isRecordMergeable_iff_witness :
  isRecordMergeable "root[0].div[1]" (Some "p")
    [mkRecord (Some "p") "A" "root[0].div[0]"] = true
  /\ pathWithoutLastIndex "root[0].div[1]" = "root[0].div".
Proof.
  destruct isRecordMergeable_iff as [Hiff Hstrip]. split.
  - apply Hiff. split; [done|]. eexists. by repeat split.
  - apply (Hstrip "root[0].div" 1%nat).
Defined.

(** C2: under the merge strategy a call of [addRecords] that is not
    mergeable appends the one record [{type: tag, content, id: parentPath}];
    a mergeable call adds no record and extends the content of the last one
    by a space and the new content; so a text [A] that starts a record
    followed by a mergeable text [B] leaves one record for both, whose
    content is [A], one space, [B]. *)
Theorem addRecords_merge (newContent : string) (tag : option string)
    (path : string) (records : list DefaultSchemaElement) :
  let parentPath := parentPathOf path in
  (isRecordMergeable parentPath tag records = false ->
   addRecords newContent tag path records merge
   = records ++ [mkRecord tag newContent parentPath])
  /\ (forall init lastRecord,
         records = init ++ [lastRecord] ->
         isRecordMergeable parentPath tag records = true ->
         addRecords newContent tag path records merge
         = init ++ [mkRecord (type lastRecord)
                      (content lastRecord +:+ " " +:+ newContent)
                      (id lastRecord)])
  /\ (forall next nextPath,
         isRecordMergeable parentPath tag records = false ->
         isRecordMergeable (parentPathOf nextPath) tag
           (addRecords newContent tag path records merge) = true ->
         addRecords next tag nextPath
           (addRecords newContent tag path records merge) merge
         = records ++ [mkRecord tag (newContent +:+ " " +:+ next) parentPath]).
Proof.
  intros parentPath. split; [|split].
  - apply addRecords_merge_new.
  - intros init l -> Hm. by apply addRecords_merge_last.
  - intros next nextPath Hnew.
    rewrite (addRecords_merge_new _ _ _ _ Hnew). intros Hm.
    by rewrite addRecords_merge_last.
Qed.

Lemma addRecords_merge_witness :
  addRecords "A" (Some "p") "root[0].div[0].p[0]" [] merge
  = [mkRecord (Some "p") "A" "root[0].div[0]"]
  /\ addRecords "B" (Some "p") "root[0].div[1].p[0]"
       [mkRecord (Some "h1") "T" "root[0]"; mkRecord (Some "p") "A" "root[0].div[0]"]
       merge
     = [mkRecord (Some "h1") "T" "root[0]"; mkRecord (Some "p") "A B" "root[0].div[0]"]
  /\ addRecords "B" (Some "p") "root[0].div[1].p[0]"
       (addRecords "A" (Some "p") "root[0].div[0].p[0]" [] merge) merge
     = [mkRecord (Some "p") "A B" "root[0].div[0]"].
Proof.
  split; [|split].
  - apply (proj1 (addRecords_merge "A" (Some "p") "root[0].div[0].p[0]" [])).
    reflexivity.
  - apply (proj1 (proj2 (addRecords_merge "B" (Some "p") "root[0].div[1].p[0]"
                           [mkRecord (Some "h1") "T" "root[0]";
                            mkRecord (Some "p") "A" "root[0].div[0]"]))
             [mkRecord (Some "h1") "T" "root[0]"]
             (mkRecord (Some "p") "A" "root[0].div[0]")); reflexivity.
  - apply (proj2 (proj2 (addRecords_merge "A" (Some "p") "root[0].div[0].p[0]" []))
             "B" "root[0].div[1].p[0]"); reflexivity.
Defined.

(** C3: under the both strategy a call of [addRecords] that is not
    mergeable pushes two records, the new one and a copy of it; a mergeable
    call puts the new record immediately before the last record and extends
    the content of the last record by a space and the new content; so a
    text [A] that starts a record followed by a mergeable text [B] leaves
    three records: [A], [B] and, last, [A B]. *)
Theorem addRecords_both (newContent : string) (tag : option string)
    (path : string) (records : list DefaultSchemaElement) :
  let parentPath := parentPathOf path in
  (isRecordMergeable parentPath tag records = false ->
   addRecords newContent tag path records both
   = records ++ [mkRecord tag newContent parentPath;
                 mkRecord tag newContent parentPath])
  /\ (forall init lastRecord,
         records = init ++ [lastRecord] ->
         isRecordMergeable parentPath tag records = true ->
         addRecords newContent tag path records both
         = init ++ [mkRecord tag newContent parentPath;
                    mkRecord (type lastRecord)
                      (content lastRecord +:+ " " +:+ newContent)
                      (id lastRecord)])
  /\ (forall next nextPath,
         isRecordMergeable parentPath tag records = false ->
         isRecordMergeable (parentPathOf nextPath) tag
           (addRecords newContent tag path records both) = true ->
         addRecords next tag nextPath
           (addRecords newContent tag path records both) both
         = records ++ [mkRecord tag newContent parentPath;
                       mkRecord tag next (parentPathOf nextPath);
                       mkRecord tag (newContent +:+ " " +:+ next) parentPath]).
Proof.
  intros parentPath. split; [|split].
  - apply addRecords_both_new.
  - intros init l -> Hm. by apply addRecords_both_last.
  - intros next nextPath Hnew.
    rewrite (addRecords_both_new _ _ _ _ Hnew).
    change (records ++ [newRecordOf newContent tag path; newRecordOf newContent tag path])
      with (records ++ [newRecordOf newContent tag path] ++ [newRecordOf newContent tag path]).
    rewrite app_assoc. intros Hm.
    rewrite addRecords_both_last by done. by rewrite <- app_assoc.
Qed.

Lemma addRecords_both_witness :
  addRecords "A" (Some "p") "root[0].div[0].p[0]" [] both
  = [mkRecord (Some "p") "A" "root[0].div[0]";
     mkRecord (Some "p") "A" "root[0].div[0]"]
  /\ addRecords "C" (Some "p") "root[0].div[2].p[0]"
       [mkRecord (Some "p") "A" "root[0].div[0]";
        mkRecord (Some "p") "B" "root[0].div[1]";
        mkRecord (Some "p") "A B" "root[0].div[0]"] both
     = [mkRecord (Some "p") "A" "root[0].div[0]";
        mkRecord (Some "p") "B" "root[0].div[1]";
        mkRecord (Some "p") "C" "root[0].div[2]";
        mkRecord (Some "p") "A B C" "root[0].div[0]"]
  /\ addRecords "B" (Some "p") "root[0].div[1].p[0]"
       (addRecords "A" (Some "p") "root[0].div[0].p[0]" [] both) both
     = [mkRecord (Some "p") "A" "root[0].div[0]";
        mkRecord (Some "p") "B" "root[0].div[1]";
        mkRecord (Some "p") "A B" "root[0].div[0]"].
Proof.
  split; [|split].
  - apply (proj1 (addRecords_both "A" (Some "p") "root[0].div[0].p[0]" [])).
    reflexivity.
  - apply (proj1 (proj2 (addRecords_both "C" (Some "p") "root[0].div[2].p[0]"
                           [mkRecord (Some "p") "A" "root[0].div[0]";
                            mkRecord (Some "p") "B" "root[0].div[1]";
                            mkRecord (Some "p") "A B" "root[0].div[0]"]))
             [mkRecord (Some "p") "A" "root[0].div[0]";
              mkRecord (Some "p") "B" "root[0].div[1]"]
             (mkRecord (Some "p") "A B" "root[0].div[0]")); reflexivity.
  - apply (proj2 (proj2 (addRecords_both "A" (Some "p") "root[0].div[0].p[0]" []))
             "B" "root[0].div[1].p[0]"); reflexivity.
Defined.

(** Every record after a call of [addRecords] was there before, or is the
    new record, or is the last record with its content extended. *)
Lemma addRecords_elem (newContent : string) (tag : option string)
    (path : string) (records : list DefaultSchemaElement)
    (strategy : MergeStrategy) (r : DefaultSchemaElement) :
  r ∈ addRecords newContent tag path records strategy ->
  r ∈ records
  \/ r = newRecordOf newContent tag path
  \/ exists lastRecord,
       last records = Some lastRecord /\ r = withMoreContent newContent lastRecord.
Proof.
  destruct (isRecordMergeable (parentPathOf path) tag records) eqn:Hm.
  - destruct (isRecordMergeable_last _ _ _ Hm) as (init & l & ->).
    rewrite last_snoc. destruct strategy.
    + rewrite addRecords_merge_last by done.
      rewrite !elem_of_app, !list_elem_of_singleton.
      intros [Hr| ->]; [auto|]. right; right. by exists l.
    + rewrite addRecords_split.
      rewrite !elem_of_app, !list_elem_of_singleton. intros [Hr| ->]; auto.
    + rewrite addRecords_both_last by done.
      rewrite !elem_of_app, !elem_of_cons, elem_of_nil.
      intros [Hr|[->|[->|[]]]]; [auto..|]. right; right. by exists l.
  - destruct strategy.
    + rewrite addRecords_merge_new by done.
      rewrite !elem_of_app, !list_elem_of_singleton. intros [Hr| ->]; auto.
    + rewrite addRecords_split.
      rewrite !elem_of_app, !list_elem_of_singleton. intros [Hr| ->]; auto.
    + rewrite addRecords_both_new by done.
      rewrite !elem_of_app, !elem_of_cons, elem_of_nil.
      intros [Hr|[->|[->|[]]]]; auto.
Qed.

(** Every record after a sequence of calls has the type and id of a record
    that was there before, or of the new record of one of the calls. *)
Lemma addVisits_elem (strategy : MergeStrategy) (vs : list Visit)
    (records : list DefaultSchemaElement) (r : DefaultSchemaElement) :
  r ∈ addVisits strategy vs records ->
  (exists r0, r0 ∈ records /\ type r = type r0 /\ id r = id r0)
  \/ (exists v, v ∈ vs /\ type r = visitTag v /\ id r = parentPathOf (visitPath v)).
Proof.
  unfold addVisits. revert records.
  induction vs as [|v vs IH]; intros records; cbn [foldl].
  - intros Hr. left. by exists r.
  - intros Hr. destruct (IH _ Hr) as [(r0 & Hr0 & Ht & Hi)|(v' & Hv' & Hrv)].
    + unfold addVisit in Hr0.
      destruct (addRecords_elem _ _ _ _ _ _ Hr0) as [Hold|[->|(l & Hl & ->)]].
      * left. by exists r0.
      * right. exists v. split; [by left|]. by rewrite Ht, Hi.
      * left. exists l. split; [|by rewrite Ht, Hi].
        apply last_Some in Hl as [init ->]. apply elem_of_app. right.
        by apply list_elem_of_singleton.
    + right. exists v'. split; [by right|done].
Qed.

(** ** The walk and its calls *)

Lemma textVisits_app (a b : list Call) :
  textVisits (a ++ b) = textVisits a ++ textVisits b.
Proof. apply omap_app. Qed.

Lemma addVisits_app (strategy : MergeStrategy) (a b : list Visit)
    (records : list DefaultSchemaElement) :
  addVisits strategy (a ++ b) records
  = addVisits strategy b (addVisits strategy a records).
Proof. apply foldl_app. Qed.

Lemma forEachFrom_collecting_cons {A : Type}
    (below : A -> nat -> list Call * Completion)
    (x : A) (xs : list A) (i : nat) (seen : list Call) :
  forEachFrom (collecting below) (x :: xs) i seen
  = match snd (below x i) with
    | Normal => forEachFrom (collecting below) xs (S i) (seen ++ fst (below x i))
    | stop => (seen ++ fst (below x i), stop)
    end.
Proof.
  cbn [forEachFrom]. unfold collecting at 1. cbn [fst snd].
  by destruct (snd (below x i)).
Qed.

(** The calls seen so far stay in front. *)
Lemma forEachFrom_collecting_seen {A : Type}
    (below : A -> nat -> list Call * Completion)
    (xs : list A) (i : nat) (seen : list Call) :
  forEachFrom (collecting below) xs i seen
  = (seen ++ fst (forEachFrom (collecting below) xs i []),
     snd (forEachFrom (collecting below) xs i [])).
Proof.
  revert i seen. induction xs as [|x xs IH]; intros i seen.
  - simpl. by rewrite app_nil_r.
  - rewrite !forEachFrom_collecting_cons.
    destruct (snd (below x i)) eqn:Hc; [|done..].
    rewrite (IH _ (seen ++ _)), (IH _ ([] ++ _)).
    simpl. by rewrite app_assoc.
Qed.

(** A [forEach] whose body adds the records of the text nodes among the
    calls below each element adds the records of the text nodes among all
    the calls. *)
Lemma forEachFrom_visits {A : Type} (strategy : MergeStrategy)
    (body : A -> nat -> list DefaultSchemaElement
            -> list DefaultSchemaElement * Completion)
    (below : A -> nat -> list Call * Completion)
    (xs : list A) (i : nat) (records : list DefaultSchemaElement) :
  (forall x i records,
      body x i records
      = (addVisits strategy (textVisits (fst (below x i))) records,
         snd (below x i))) ->
  forEachFrom body xs i records
  = (addVisits strategy
       (textVisits (fst (forEachFrom (collecting below) xs i []))) records,
     snd (forEachFrom (collecting below) xs i [])).
Proof.
  intros Hbody. revert i records.
  induction xs as [|x xs IH]; intros i records; [done|].
  rewrite forEachFrom_collecting_cons. cbn [forEachFrom]. rewrite Hbody.
  destruct (snd (below x i)) eqn:Hc; [|done..].
  rewrite IH, (forEachFrom_collecting_seen _ _ _ ([] ++ _)). simpl.
  by rewrite textVisits_app, addVisits_app.
Qed.

Lemma forEachFrom_ext {A S : Type} (f g : A -> nat -> S -> S * Completion)
    (xs : list A) (i : nat) (s : S) :
  (forall x i s, f x i s = g x i s) ->
  forEachFrom f xs i s = forEachFrom g xs i s.
Proof.
  intros Hfg. revert i s. induction xs as [|x xs IH]; intros i s; [done|].
  cbn [forEachFrom]. rewrite Hfg. destruct (g x i s) as [s' []]; auto.
Qed.

Lemma forEachFrom_app {A St : Type} (body : A -> nat -> St -> St * Completion)
    (xs ys : list A) (i : nat) (s : St) :
  forEachFrom body (xs ++ ys) i s
  = match forEachFrom body xs i s with
    | (s', Normal) => forEachFrom body ys (i + length xs) s'
    | stop => stop
    end.
Proof.
  revert i s. induction xs as [|x xs IH]; intros i s.
  - cbn. by rewrite Nat.add_0_r.
  - cbn [app forEachFrom length]. destruct (body x i s) as [s' []]; [|done..].
    rewrite IH. by replace (S i + length xs)%nat with (i + S (length xs))%nat by lia.
Qed.

Section WalkFacts.
Context `{Hast}.

(** The records of a visit are the records of the calls of [addRecords]
    it makes, in the order of the calls, and it ends as the list of its
    calls ends. *)
Lemma visitChildren_calls (fuel : nat) (node : Content) (parent : Parent)
    (path : string)
    (records : list DefaultSchemaElement) (options : option PopulateOptions) :
  visitChildren fuel node parent path records options
  = (addVisits (strategyOf options)
       (textVisits (fst (calls fuel node parent path options))) records,
     snd (calls fuel node parent path options)).
Proof.
  revert node parent path records.
  induction fuel as [|fuel IH]; intros node parent path records; [done|].
  destruct node as [t cs|v|v|]; try done.
  simpl. destruct (transformedOf options (element t cs)) as [[t' cs'|v|v|]|];
    try done.
  unfold forEach.
  rewrite (forEachFrom_visits (strategyOf options) _
             (fun child i => calls fuel child (ofElement (element t' cs'))
                               (childPath path t' i) options))
    by (intros; apply IH).
  by rewrite (forEachFrom_collecting_seen _ _ _ [_]).
Qed.

Lemma rehypeLyra_calls (fuel : nat) (records : list DefaultSchemaElement)
    (options : option PopulateOptions) (tree : Root) :
  rehypeLyra fuel records options tree
  = (addVisits (strategyOf options)
       (textVisits (fst (rehypeLyraCalls fuel options tree))) records,
     snd (rehypeLyraCalls fuel options tree)).
Proof.
  unfold rehypeLyra, rehypeLyraCalls, forEach. apply forEachFrom_visits.
  intros. apply visitChildren_calls.
Qed.

(** A visit looks at its parent for its tag name only. *)
Lemma visitChildren_parent (fuel : nat) (node : Content) (parent parent' : Parent)
    (path : string) (records : list DefaultSchemaElement)
    (options : option PopulateOptions) :
  parentTagName parent = parentTagName parent' ->
  visitChildren fuel node parent path records options
  = visitChildren fuel node parent' path records options.
Proof.
  intros Hp. destruct fuel as [|fuel]; [done|].
  destruct node as [t cs|v|v|]; try done.
  cbn [visitChildren]. by rewrite Hp.
Qed.

End WalkFacts.

(** ** More fuel changes nothing

    Once a walk ends, normally or by a [TypeError], with some fuel, it ends
    the same way with the same records with any larger fuel. *)

Lemma forEachFrom_collecting_ext {A : Type}
    (below below' : A -> nat -> list Call * Completion)
    (xs : list A) (i : nat) (seen : list Call) :
  (forall x j, snd (below x j) <> OutOfFuel -> below' x j = below x j) ->
  snd (forEachFrom (collecting below) xs i seen) <> OutOfFuel ->
  forEachFrom (collecting below') xs i seen
  = forEachFrom (collecting below) xs i seen.
Proof.
  intros Hext. revert i seen.
  induction xs as [|x xs IH]; intros i seen; [done|].
  rewrite !forEachFrom_collecting_cons.
  destruct (snd (below x i)) eqn:Hx.
  - intros Hn. rewrite (Hext x i) by (by rewrite Hx). rewrite Hx. by apply IH.
  - intros _. rewrite (Hext x i) by (by rewrite Hx). by rewrite Hx.
  - done.
Qed.

Section FuelFacts.
Context `{Hast}.

Lemma calls_more_fuel (options : option PopulateOptions) (fuel : nat) :
  forall (fuel' : nat) (node : Content) (parent : Parent) (path : string),
    fuel <= fuel' ->
    snd (calls fuel node parent path options) <> OutOfFuel ->
    calls fuel' node parent path options = calls fuel node parent path options.
Proof.
  induction fuel as [|fuel IH]; intros fuel' node parent path Hle; [done|].
  destruct fuel' as [|fuel']; [lia|].
  destruct node as [t cs|v|v|]; try done.
  cbn [calls].
  destruct (transformedOf options (element t cs)) as [[t' cs'|v|v|]|];
    try done.
  unfold forEach. apply forEachFrom_collecting_ext.
  intros x j. apply IH. lia.
Qed.

Lemma rehypeLyra_more_fuel (options : option PopulateOptions)
    (fuel fuel' : nat) (records : list DefaultSchemaElement) (tree : Root) :
  fuel <= fuel' ->
  snd (rehypeLyra fuel records options tree) <> OutOfFuel ->
  rehypeLyra fuel' records options tree = rehypeLyra fuel records options tree.
Proof.
  intros Hle. rewrite !rehypeLyra_calls. cbn [snd]. intros Hn.
  unfold rehypeLyraCalls, forEach in *.
  rewrite (forEachFrom_collecting_ext
             (fun child i => calls fuel child (ofRoot tree) (rootPath options i) options)
             (fun child i => calls fuel' child (ofRoot tree) (rootPath options i) options));
    [done| |done].
  intros x j. by apply calls_more_fuel.
Qed.

End FuelFacts.

(** ** The split strategy *)

Lemma addVisits_split (vs : list Visit) (records : list DefaultSchemaElement) :
  addVisits split vs records
  = records
    ++ ((fun v => newRecordOf (visitValue v) (visitTag v) (visitPath v)) <$> vs).
Proof.
  unfold addVisits. revert records.
  induction vs as [|v vs IH]; intros records.
  - simpl. by rewrite app_nil_r.
  - cbn [foldl]. rewrite IH. unfold addVisit. rewrite addRecords_split.
    rewrite fmap_cons. by rewrite <- app_assoc.
Qed.

Lemma height_element (t : string) (cs : list Content) :
  height (element t cs) = S (max_list (height <$> cs)).
Proof. simpl. f_equal. induction cs as [|c cs IH]; simpl; auto. Qed.

Lemma countText_element (t : string) (cs : list Content) :
  countText (element t cs) = sum_list (countText <$> cs).
Proof. simpl. induction cs as [|c cs IH]; simpl; auto. Qed.

Lemma height_child (cs : list Content) (c : Content) :
  c ∈ cs -> height c <= max_list (height <$> cs).
Proof.
  induction 1 as [c cs|c c' cs _ IH]; rewrite fmap_cons; cbn [max_list];
    unfold Datatypes.id in *; lia.
Qed.

(** When every element of the list is walked to the end, so is the list,
    and the text nodes add up. *)
Lemma forEachFrom_collecting_normal {A : Type}
    (below : A -> nat -> list Call * Completion) (count : A -> nat)
    (xs : list A) (i : nat) :
  (forall x j, x ∈ xs ->
     snd (below x j) = Normal /\
     length (textVisits (fst (below x j))) = count x) ->
  snd (forEachFrom (collecting below) xs i []) = Normal /\
  length (textVisits (fst (forEachFrom (collecting below) xs i [])))
  = sum_list (count <$> xs).
Proof.
  revert i. induction xs as [|x xs IH]; intros i Hxs; [done|].
  rewrite forEachFrom_collecting_cons.
  destruct (Hxs x i) as [-> Hx]; [by left|].
  rewrite forEachFrom_collecting_seen. cbn [fst snd].
  destruct (IH (S i)) as [-> Hrest].
  { intros y j Hy. apply Hxs. by right. }
  split; [done|]. rewrite app_nil_l, textVisits_app, length_app, Hx, Hrest.
  done.
Qed.

Section SplitFacts.
Context `{Hast}.

Lemma transformedOf_none (options : option PopulateOptions) (node : Content) :
  transformFnOf options = None -> transformedOf options node = Some node.
Proof. intros Hnone. unfold transformedOf. by rewrite Hnone. Qed.

(** Without a transform the walk of a node ends normally once the fuel
    covers its height, and it calls [addRecords] once per text node. *)
Lemma calls_no_transform (options : option PopulateOptions) (fuel : nat) :
  transformFnOf options = None ->
  forall (node : Content) (parent : Parent) (path : string),
    height node <= fuel ->
    snd (calls fuel node parent path options) = Normal /\
    length (textVisits (fst (calls fuel node parent path options)))
    = countText node.
Proof.
  intros Hnone. induction fuel as [|fuel IH]; intros node parent path Hh.
  { destruct node; simpl in Hh; lia. }
  destruct node as [t cs|v|v|]; try done.
  cbn [calls]. rewrite transformedOf_none by done.
  unfold forEach. rewrite forEachFrom_collecting_seen. cbn [fst snd].
  rewrite height_element in Hh. rewrite countText_element.
  destruct (forEachFrom_collecting_normal
              (fun child i => calls fuel child (ofElement (element t cs))
                                (childPath path t i) options)
              countText cs 0) as [-> Hn].
  { intros c j Hc. apply IH. apply height_child in Hc. lia. }
  split; [done|]. by rewrite textVisits_app, length_app, Hn.
Qed.

Lemma rehypeLyraCalls_no_transform (options : option PopulateOptions)
    (fuel : nat) (tree : Root) :
  transformFnOf options = None ->
  rootHeight tree <= fuel ->
  snd (rehypeLyraCalls fuel options tree) = Normal /\
  length (textVisits (fst (rehypeLyraCalls fuel options tree)))
  = rootCountText tree.
Proof.
  intros Hnone Hh. unfold rehypeLyraCalls, rootCountText.
  apply forEachFrom_collecting_normal.
  intros c j Hc. apply calls_no_transform; [done|].
  apply height_child in Hc. unfold rootHeight in Hh. lia.
Qed.

(** C4: under the split strategy a call of [addRecords] appends one
    record and leaves the others as they are; so the records of a walk
    are the new records of the text nodes it meets, one each and in
    order, whatever the transform does; and without a transform, once
    the fuel covers the tree, the walk ends normally with as many
    records as the tree has text nodes. *)
Theorem split_one_record_per_text_node (fuel : nat)
    (options : option PopulateOptions) (tree : Root) :
  strategyOf options = split ->
  (forall newContent tag path records,
      addRecords newContent tag path records split
      = records ++ [mkRecord tag newContent (parentPathOf path)])
  /\ fst (rehypeLyra fuel [] options tree)
     = (fun v => mkRecord (visitTag v) (visitValue v) (parentPathOf (visitPath v)))
         <$> textVisits (fst (rehypeLyraCalls fuel options tree))
  /\ length (fst (rehypeLyra fuel [] options tree))
     = length (textVisits (fst (rehypeLyraCalls fuel options tree)))
  /\ (transformFnOf options = None ->
      rootHeight tree <= fuel ->
      snd (rehypeLyra fuel [] options tree) = Normal /\
      length (fst (rehypeLyra fuel [] options tree)) = rootCountText tree).
Proof.
  intros Hsplit. split; [done|].
  rewrite rehypeLyra_calls, Hsplit, addVisits_split. cbn [fst snd].
  split; [done|]. rewrite app_nil_l, length_fmap. split; [done|].
  intros Hnone Hh. by apply rehypeLyraCalls_no_transform.
Qed.

End SplitFacts.

Lemma split_one_record_per_text_node_witness :
  length (fst (rehypeLyra (H := Example.hast [] []) 3 []
                 (Example.withStrategy split) Example.twoParagraphs))
  = rootCountText Example.twoParagraphs.
Proof.
  apply (split_one_record_per_text_node (H := Example.hast [] []) 3
           (Example.withStrategy split) Example.twoParagraphs eq_refl).
  - reflexivity.
  - vm_compute. lia.
Defined.

(** ** Reconciling a transformed element *)

Section TransformFacts.
Context `{Hast}.

(** C9: for an element and the result of the transform: when [raw] differs
    from the serialization of the element, [applyChanges] hands back the
    first node of the fragment parsed from [raw], whatever [tag] and
    [content] are; when [raw] is the same, the element is renamed to [tag]
    and keeps its children if [content] is its flattened text, and is given
    [content] through [fromString] if not. *)
Theorem applyChanges_cases (tagName : string) (children : list Content)
    (transformedNode : NodeContent.t) :
  let node := element tagName children in
  let renamed := element (NodeContent.tag transformedNode) children in
  (toHtml node <> NodeContent.raw transformedNode ->
   applyChanges node transformedNode
   = head (fromHtml (NodeContent.raw transformedNode))
   /\ forall tag content,
        applyChanges node
          (NodeContent.mk tag (NodeContent.raw transformedNode) content)
        = applyChanges node transformedNode)
  /\ (toHtml node = NodeContent.raw transformedNode ->
      toString renamed <> NodeContent.content transformedNode ->
      applyChanges node transformedNode
      = Some (fromString renamed (NodeContent.content transformedNode)))
  /\ (toHtml node = NodeContent.raw transformedNode ->
      toString renamed = NodeContent.content transformedNode ->
      applyChanges node transformedNode = Some renamed).
Proof.
  intros node renamed. subst node renamed. unfold applyChanges.
  cbn [withTagName NodeContent.raw]. split; [|split].
  - intros Hraw. apply String.eqb_neq in Hraw. by rewrite Hraw.
  - intros Hraw Hcontent. apply String.eqb_eq in Hraw.
    apply String.eqb_neq in Hcontent. by rewrite Hraw, Hcontent.
  - intros Hraw Hcontent. apply String.eqb_eq in Hraw.
    apply String.eqb_eq in Hcontent. by rewrite Hraw, Hcontent.
Qed.

(** ** Unknown file types *)

(** C5 as amended: for a file type that is neither ["html"] nor ["md"]
    [populate] does not fail: it returns the file type, with no walk and no
    insertion. *)
Theorem populate_other_type (fuel : nat) (data fileType : string)
    (options : option PopulateOptions) :
  fileType <> "html" -> fileType <> "md" ->
  populate fuel data fileType options = ResolvedWith fileType.
Proof.
  intros Hhtml Hmd. unfold populate.
  apply String.eqb_neq in Hhtml. apply String.eqb_neq in Hmd.
  by rewrite Hmd, Hhtml.
Qed.

End TransformFacts.

Lemma applyChanges_cases_witness :
  let H := Example.hast
             [("<div><p>Hello</p></div>", [element "div" [element "p" [text "Hello"]]])]
             [] in
  let h1 := element "h1" [text "Heading"] in
  applyChanges h1 (NodeContent.mk "h2" "<div><p>Hello</p></div>" "New content")
  = Some (element "div" [element "p" [text "Hello"]])
  /\ applyChanges h1 (NodeContent.mk "h1" "<h1>Heading</h1>" "New content")
     = Some (element "h1" [text "New content"])
  /\ applyChanges h1 (NodeContent.mk "h2" "<h1>Heading</h1>" "Heading")
     = Some (element "h2" [text "Heading"]).
Proof.
  intros H h1. split; [|split].
  - refine (eq_trans
              (proj1 (proj1 (applyChanges_cases "h1" [text "Heading"]
                               (NodeContent.mk "h2" "<div><p>Hello</p></div>"
                                  "New content")) _)) _).
    + vm_compute. discriminate.
    + reflexivity.
  - refine (eq_trans
              (proj1 (proj2 (applyChanges_cases "h1" [text "Heading"]
                               (NodeContent.mk "h1" "<h1>Heading</h1>"
                                  "New content"))) _ _) _).
    + reflexivity.
    + vm_compute. discriminate.
    + reflexivity.
  - refine (eq_trans
              (proj2 (proj2 (applyChanges_cases "h1" [text "Heading"]
                               (NodeContent.mk "h2" "<h1>Heading</h1>"
                                  "Heading"))) _ _) _); reflexivity.
Defined.

Lemma populate_other_type_witness :
  populate (H := Example.hast [] []) 1 "plain text" "txt" None
  = ResolvedWith "txt".
Proof. apply populate_other_type; discriminate. Defined.

(** C5 as stated fails: the call for the file type ["txt"] is not rejected,
    it resolves with ["txt"]; so it is not true that every other file type
    makes [populate] fail. *)
Lemma populate_other_type_counterexample :
  populate (H := Example.hast [] []) 1 "plain text" "txt" None
  = ResolvedWith "txt"
  /\ ~ (forall (H : Hast) (fuel : nat) (data fileType : string)
               (options : option PopulateOptions),
           fileType <> "html" -> fileType <> "md" ->
           populate fuel data fileType options = Rejected).
Proof.
  split; [reflexivity|]. intros Hclaim.
  specialize (Hclaim (Example.hast [] []) 1%nat "plain text" "txt" None).
  discriminate Hclaim; discriminate.
Qed.

(** ** Paths *)

(** A call listed by a [forEach] was seen before, or is among the calls
    below one of the elements, all of which are listed. *)
Lemma forEachFrom_collecting_elem {A : Type}
    (below : A -> nat -> list Call * Completion)
    (xs : list A) (i : nat) (seen : list Call) (c : Call) :
  c ∈ fst (forEachFrom (collecting below) xs i seen) ->
  c ∈ seen
  \/ exists (j : nat) (x : A),
       xs !! j = Some x /\
       c ∈ fst (below x (i + j)%nat) /\
       forall c', c' ∈ fst (below x (i + j)%nat) ->
                  c' ∈ fst (forEachFrom (collecting below) xs i seen).
Proof.
  revert i seen. induction xs as [|x xs IH]; intros i seen; [by left|].
  rewrite forEachFrom_collecting_cons.
  assert (Hhere : forall rest : list Call,
             c ∈ (seen ++ fst (below x i)) ++ rest ->
             (forall c', c' ∈ fst (below x i) ->
                         c' ∈ (seen ++ fst (below x i)) ++ rest) /\
             (c ∈ seen \/ c ∈ fst (below x i) \/ c ∈ rest)).
  { intros rest Hc. split.
    - intros c' Hc'. rewrite !elem_of_app. auto.
    - rewrite !elem_of_app in Hc. tauto. }
  destruct (snd (below x i)) eqn:Hstop.
  - rewrite forEachFrom_collecting_seen. cbn [fst]. intros Hc.
    destruct (Hhere _ Hc) as [Hall [Hs|[Hb|Hr]]]; [by left|..].
    + right. exists 0%nat, x. rewrite Nat.add_0_r. by repeat split.
    + destruct (IH (S i) [] Hr) as [Hnil|(j & y & Hj & Hcj & Hallj)].
      { by apply elem_of_nil in Hnil. }
      right. exists (S j), y. replace (i + S j)%nat with (S i + j)%nat by lia.
      repeat split; [done..|]. intros c' Hc'. rewrite elem_of_app. right.
      by apply Hallj.
  - cbn [fst]. intros Hc. rewrite <- (app_nil_r (seen ++ _)) in Hc.
    destruct (Hhere _ Hc) as [Hall [Hs|[Hb|Hr]]]; [by left| |by apply elem_of_nil in Hr].
    right. exists 0%nat, x. rewrite Nat.add_0_r. repeat split; [done..|].
    intros c' Hc'. rewrite elem_of_app. by right.
  - cbn [fst]. intros Hc. rewrite <- (app_nil_r (seen ++ _)) in Hc.
    destruct (Hhere _ Hc) as [Hall [Hs|[Hb|Hr]]]; [by left| |by apply elem_of_nil in Hr].
    right. exists 0%nat, x. rewrite Nat.add_0_r. repeat split; [done..|].
    intros c' Hc'. rewrite elem_of_app. by right.
Qed.


Lemma hasChar_split (c : ascii) (s : string) :
  hasChar c s = true ->
  exists a b, s = a +:+ String c b /\ hasChar c b = false.
Proof.
  induction s as [|x s IH]; [done|]. simpl.
  destruct (hasChar c s) eqn:Hs.
  - intros _. destruct IH as (a & b & -> & Hb); [done|].
    exists (String x a), b. by rewrite string_app_cons.
  - destruct (Ascii.eqb_spec c x) as [->|]; [|done]. intros _.
    by exists "", s.
Qed.

(** What follows the last dot does not matter, and text without a dot that
    is added at the end does not move the last dot. *)
Lemma parentPathOf_app_dotless (s rest : string) :
  hasChar dot rest = false -> parentPathOf (s +:+ rest) = parentPathOf s.
Proof.
  intros Hrest. destruct (hasChar dot s) eqn:Hs.
  - destruct (hasChar_split _ _ Hs) as (a & b & -> & Hb).
    rewrite app_assoc_string, string_app_cons.
    change (String dot ?x) with ("." +:+ x).
    rewrite !parentPathOf_dotted; [done..|].
    by rewrite hasChar_app, Hb, Hrest.
  - rewrite !parentPathOf_dotless; [done..|].
    by rewrite hasChar_app, Hs, Hrest.
Qed.

Lemma parentPathOf_childPath (path tagName : string) (i : nat) :
  hasChar dot tagName = false ->
  parentPathOf (childPath path tagName i) = path.
Proof.
  intros Htag. unfold childPath. apply parentPathOf_dotted.
  rewrite !hasChar_app, Htag, hasChar_ofIndex by done. done.
Qed.

Lemma parentPathOf_rootPath (options : option PopulateOptions) (i : nat) :
  parentPathOf (rootPath options i) = parentPathOf (basePathOf options).
Proof.
  unfold rootPath. apply parentPathOf_app_dotless.
  rewrite !hasChar_app, hasChar_ofIndex by done. done.
Qed.

Section PathFacts.
Context `{Hast}.

(** Every call is the one the walk of the node starts with, or is made for
    a child of the element of another call of that walk. *)
Lemma calls_elem (options : option PopulateOptions) (fuel : nat) :
  forall (node : Content) (parent : Parent) (path : string) (c : Call),
    c ∈ fst (calls fuel node parent path options) ->
    c = mkCall node parent path
    \/ exists p, p ∈ fst (calls fuel node parent path options) /\
                 childCallOf options p c.
Proof.
  induction fuel as [|fuel IH]; intros node parent path c.
  { intros Hc. by apply elem_of_nil in Hc. }
  destruct node as [t cs|v|v|];
    try (intros ->%list_elem_of_singleton; by left).
  cbn [calls].
  destruct (transformedOf options (element t cs)) as [[t' cs'|v|v|]|] eqn:Htr;
    try (intros ->%list_elem_of_singleton; by left).
  unfold forEach. set (here := mkCall (element t cs) parent path).
  intros Hc.
  assert (Hhere : here ∈ fst (forEachFrom
                    (collecting (fun child i =>
                       calls fuel child (ofElement (element t' cs'))
                         (childPath path t' i) options)) cs' 0 [here])).
  { rewrite forEachFrom_collecting_seen. cbn [fst]. apply elem_of_app. left.
    by apply list_elem_of_singleton. }
  destruct (forEachFrom_collecting_elem _ _ _ _ _ Hc)
    as [->%list_elem_of_singleton|(j & child & Hj & Hcj & Hall)]; [by left|].
  right. destruct (IH _ _ _ _ Hcj) as [->|(p & Hp & Hpc)].
  - exists here. split; [done|]. exists t', cs', j. by repeat split.
  - exists p. split; [by apply Hall|done].
Qed.



(** Every call of a walk is made for a child of the root or for a child of
    the (transformed) element of another call of the walk. *)
Lemma call_origin (fuel : nat) (options : option PopulateOptions)
    (tree : Root) (c : Call) :
  c ∈ fst (rehypeLyraCalls fuel options tree) ->
  (exists i : nat,
      rootChildren tree !! i = Some (callNode c) /\
      callParent c = ofRoot tree /\
      callPath c = rootPath options i)
  \/ (exists (p : Call) (t : string) (children : list Content) (i : nat),
         p ∈ fst (rehypeLyraCalls fuel options tree) /\
         tagNameOf (callNode p) <> None /\
         transformedOf options (callNode p) = Some (element t children) /\
         children !! i = Some (callNode c) /\
         callParent c = ofElement (element t children) /\
         callPath c = childPath (callPath p) t i).
Proof.
  unfold rehypeLyraCalls, forEach. intros Hc.
  destruct (forEachFrom_collecting_elem _ _ _ _ _ Hc)
    as [Hnil|(j & child & Hj & Hcj & Hall)]; [by apply elem_of_nil in Hnil|].
  destruct (calls_elem _ _ _ _ _ _ Hcj) as [->|(p & Hp & Hpc)].
  - left. by exists j.
  - right. destruct Hpc as (t & children & i & Hpc). exists p, t, children, i.
    split; [by apply Hall|done].
Qed.


End PathFacts.


(** ** Records that stay *)

(** A call of [addRecords] keeps every record: as it is, or, when it is the
    last one, with its content extended. *)
Lemma addRecords_keeps (newContent : string) (tag : option string)
    (path : string) (records : list DefaultSchemaElement)
    (strategy : MergeStrategy) (r : DefaultSchemaElement) :
  r ∈ records ->
  r ∈ addRecords newContent tag path records strategy
  \/ withMoreContent newContent r
     ∈ addRecords newContent tag path records strategy.
Proof.
  intros Hr. destruct (isRecordMergeable (parentPathOf path) tag records) eqn:Hm.
  - destruct (isRecordMergeable_last _ _ _ Hm) as (init & l & ->).
    apply elem_of_app in Hr as [Hr| ->%list_elem_of_singleton].
    + left. destruct strategy;
        rewrite ?addRecords_merge_last, ?addRecords_split, ?addRecords_both_last
          by done;
        rewrite !elem_of_app; auto.
    + destruct strategy;
        rewrite ?addRecords_merge_last, ?addRecords_split, ?addRecords_both_last
          by done;
        rewrite !elem_of_app, ?elem_of_cons, ?list_elem_of_singleton; auto.
  - left. destruct strategy;
      rewrite ?addRecords_merge_new, ?addRecords_split, ?addRecords_both_new
        by done;
      rewrite !elem_of_app; auto.
Qed.

(** What a call of [addRecords] leaves of its text: a record of the type
    it was given whose content ends with the text, the new record or the
    last record extended. *)
Lemma addRecords_adds (newContent : string) (tag : option string)
    (path : string) (records : list DefaultSchemaElement)
    (strategy : MergeStrategy) :
  exists (r : DefaultSchemaElement) (before : string),
    r ∈ addRecords newContent tag path records strategy /\
    type r = tag /\ content r = before +:+ newContent.
Proof.
  assert (Hnew : forall rs : list DefaultSchemaElement,
             newRecordOf newContent tag path ∈ rs ->
             exists (r : DefaultSchemaElement) (before : string),
               r ∈ rs /\ type r = tag /\ content r = before +:+ newContent).
  { intros rs Hin. by exists (newRecordOf newContent tag path), "". }
  destruct (isRecordMergeable (parentPathOf path) tag records) eqn:Hm.
  - destruct (isRecordMergeable_last _ _ _ Hm) as (init & l & ->).
    destruct strategy.
    + rewrite addRecords_merge_last by done.
      rewrite isRecordMergeable_snoc in Hm.
      apply andb_prop in Hm as [_ Htag%optionStringEqb_eq].
      exists (withMoreContent newContent l), (content l +:+ " ").
      split; [|split; [done|]].
      * apply elem_of_app. right. by apply list_elem_of_singleton.
      * cbn [withMoreContent content]. by rewrite app_assoc_string.
    + apply Hnew. rewrite addRecords_split. apply elem_of_app. right.
      by apply list_elem_of_singleton.
    + apply Hnew. rewrite addRecords_both_last by done. apply elem_of_app.
      right. by left.
  - apply Hnew. destruct strategy;
      rewrite ?addRecords_merge_new, ?addRecords_split, ?addRecords_both_new
        by done;
      apply elem_of_app; right; by left.
Qed.

(** A property of a record that extending its content keeps is not lost by
    further calls of [addRecords]. *)
Lemma addVisits_keeps (P : DefaultSchemaElement -> Prop)
    (strategy : MergeStrategy) (vs : list Visit) :
  (forall more r, P r -> P (withMoreContent more r)) ->
  forall records : list DefaultSchemaElement,
    (exists r, r ∈ records /\ P r) ->
    exists r, r ∈ addVisits strategy vs records /\ P r.
Proof.
  intros Hmore. unfold addVisits.
  induction vs as [|v vs IH]; intros records (r & Hr & HP); [by exists r|].
  cbn [foldl]. apply IH. unfold addVisit.
  destruct (addRecords_keeps (visitValue v) (visitTag v) (visitPath v) records
              strategy r Hr) as [Hin|Hin].
  - by exists r.
  - exists (withMoreContent (visitValue v) r). split; [done|]. by apply Hmore.
Qed.

(** Under the both strategy a record that is not the last one is never
    touched again. *)
Lemma addVisits_both_inner (r : DefaultSchemaElement) (vs : list Visit) :
  forall (init : list DefaultSchemaElement) (l : DefaultSchemaElement),
    r ∈ init -> r ∈ addVisits both vs (init ++ [l]).
Proof.
  unfold addVisits. induction vs as [|v vs IH]; intros init l Hr.
  - apply elem_of_app. by left.
  - cbn [foldl]. unfold addVisit at 2.
    destruct (isRecordMergeable (parentPathOf (visitPath v)) (visitTag v)
                (init ++ [l])) eqn:Hm.
    + rewrite addRecords_both_last by done.
      change (init ++ [?x; ?y]) with (init ++ [x] ++ [y]). rewrite app_assoc.
      apply IH. apply elem_of_app. by left.
    + rewrite addRecords_both_new by done.
      change ((init ++ [l]) ++ [?x; ?y]) with ((init ++ [l]) ++ [x] ++ [y]).
      rewrite app_assoc. apply IH. rewrite !elem_of_app. auto.
Qed.

(** Under the split and the both strategy the new record of a call stays
    in the records as it is, whatever calls follow. *)
Lemma addVisits_standalone (strategy : MergeStrategy) (newContent : string)
    (tag : option string) (path : string) (vs : list Visit)
    (records : list DefaultSchemaElement) :
  strategy <> merge ->
  newRecordOf newContent tag path
  ∈ addVisits strategy vs (addRecords newContent tag path records strategy).
Proof.
  intros Hmerge. destruct strategy; [done| |].
  - rewrite addVisits_split, addRecords_split, !elem_of_app.
    left. right. by apply list_elem_of_singleton.
  - destruct (isRecordMergeable (parentPathOf path) tag records) eqn:Hm.
    + destruct (isRecordMergeable_last _ _ _ Hm) as (init & l & ->).
      rewrite addRecords_both_last by done.
      change (init ++ [?x; ?y]) with (init ++ [x] ++ [y]). rewrite app_assoc.
      apply addVisits_both_inner. apply elem_of_app. right.
      by apply list_elem_of_singleton.
    + rewrite addRecords_both_new by done.
      change (records ++ [?x; ?y]) with (records ++ [x] ++ [y]).
      rewrite app_assoc.
      apply addVisits_both_inner. apply elem_of_app. right.
      by apply list_elem_of_singleton.
Qed.

Section IdFacts.
Context `{Hast}.

(** The id of the record of a text node below an element whose tag has no
    dot is the path at which that element was visited: the path of the text
    node without its final [.tag[index]]. *)
Lemma record_id_is_parent_path (fuel : nat) (options : option PopulateOptions)
    (tree : Root) (c : Call) (value tagName : string) :
  c ∈ fst (rehypeLyraCalls fuel options tree) ->
  callNode c = text value ->
  parentTagName (callParent c) = Some tagName ->
  hasChar dot tagName = false ->
  exists (p : Call) (i : nat),
    p ∈ fst (rehypeLyraCalls fuel options tree) /\
    childCallOf options p c /\
    callPath c = callPath p +:+ "." +:+ tagName +:+ "[" +:+ Js.ofIndex i +:+ "]" /\
    visitOf c = Some (mkVisit value (Some tagName) (callPath c)) /\
    newRecordOf value (Some tagName) (callPath c)
    = mkRecord (Some tagName) value (callPath p).
Proof.
  intros Hc Hv Hparent Htag.
  destruct (call_origin fuel options tree c Hc)
    as [(i & _ & Hroot & _)|(p & t & cs & i & Hp & Hel & Htr & Hi & Hpar & Hpath)].
  { rewrite Hroot in Hparent. done. }
  rewrite Hpar in Hparent. injection Hparent as ->.
  exists p, i. split; [done|]. split.
  { by exists tagName, cs, i. }
  split; [done|]. split.
  - unfold visitOf. by rewrite Hv, Hpar.
  - unfold newRecordOf. f_equal. rewrite Hpath.
    by apply (parentPathOf_childPath (callPath p) tagName i).
Qed.

(** Every record of a walk was started by a text node of the walk: it has
    the tag of the parent of that node as type and the parent path of that
    node as id. *)
Lemma record_of_text_call (fuel : nat) (options : option PopulateOptions)
    (tree : Root) (r : DefaultSchemaElement) :
  r ∈ fst (rehypeLyra fuel [] options tree) ->
  exists (c : Call) (value : string),
    c ∈ fst (rehypeLyraCalls fuel options tree) /\
    callNode c = text value /\
    type r = parentTagName (callParent c) /\
    id r = parentPathOf (callPath c).
Proof.
  rewrite rehypeLyra_calls. cbn [fst]. intros Hr.
  destruct (addVisits_elem _ _ _ _ Hr) as [(r0 & Hnil & _)|(v & Hv & Ht & Hi)];
    [by apply elem_of_nil in Hnil|].
  apply list_elem_of_omap in Hv as (c & Hc & Hvc).
  unfold visitOf in Hvc. destruct (callNode c) as [| value | |] eqn:Hnode;
    try done.
  injection Hvc as <-. by exists c, value.
Qed.

(** A walk that ends normally has visited each child of the root, at its
    path and with the records gathered from the children before it; what
    follows are calls of [addRecords] on the records of that visit. *)
Lemma rehypeLyra_at (fuel : nat) (options : option PopulateOptions)
    (tree : Root) (i : nat) (x : Content)
    (records : list DefaultSchemaElement) :
  rootChildren tree !! i = Some x ->
  snd (rehypeLyra fuel records options tree) = Normal ->
  exists (rs : list DefaultSchemaElement) (vs : list Visit),
    visitChildren fuel x (ofRoot tree) (rootPath options i) rs options
    = (fst (visitChildren fuel x (ofRoot tree) (rootPath options i) rs options),
       Normal)
    /\ fst (rehypeLyra fuel records options tree)
       = addVisits (strategyOf options) vs
           (fst (visitChildren fuel x (ofRoot tree) (rootPath options i) rs options)).
Proof.
  intros Hi. pose proof (take_drop_middle _ _ _ Hi) as Hsplit.
  pose proof (lookup_lt_Some _ _ _ Hi) as Hlen.
  unfold rehypeLyra, forEach.
  set (body := fun child j rs =>
                 visitChildren fuel child (ofRoot tree) (rootPath options j) rs options).
  rewrite <- Hsplit, forEachFrom_app.
  rewrite length_take, Nat.min_l by lia. cbn [Nat.add].
  destruct (forEachFrom body (take i (rootChildren tree)) 0 records)
    as [rs c0].
  destruct c0; [|done..]. cbn [forEachFrom]. intros Hn. exists rs.
  change (body x i rs)
    with (visitChildren fuel x (ofRoot tree) (rootPath options i) rs options) in *.
  destruct (visitChildren fuel x (ofRoot tree) (rootPath options i) rs options)
    as [rs' c1].
  destruct c1; [|done..]. unfold body.
  rewrite (forEachFrom_visits (strategyOf options) _
             (fun child j => calls fuel child (ofRoot tree) (rootPath options j) options))
    by (intros; apply visitChildren_calls).
  cbn [fst]. by eexists.
Qed.

(** C10: in a walk that ends normally, a text node that is a child of the
    root leaves a record without a type whose content holds its text and
    whose id is the base path cut at its own last dot; under the split and
    the both strategy this is the record of that text alone.  Every record
    without a type has this id.  The id is what the parent path computation
    gives for a path [root[j]] after the base path: the empty string when
    the base path is absent or has no dot, and what precedes the last dot
    of the base path when it has one. *)
Theorem top_level_text_id (fuel : nat) (options : option PopulateOptions)
    (tree : Root) (i : nat) (value : string) :
  let base := default "" (options ≫= basePath) in
  let cut := Js.substring base 0 (Js.lastIndexOf base ".") in
  let records := fst (rehypeLyra fuel [] options tree) in
  rootChildren tree !! i = Some (text value) ->
  snd (rehypeLyra fuel [] options tree) = Normal ->
  (exists (r : DefaultSchemaElement) (before after : string),
      r ∈ records /\ type r = None /\ id r = cut /\
      content r = before +:+ value +:+ after)
  /\ (strategyOf options <> merge -> mkRecord None value cut ∈ records)
  /\ (forall r : DefaultSchemaElement,
         r ∈ records -> type r = None -> id r = cut)
  /\ (forall j : nat,
         Js.substring (base +:+ "root[" +:+ Js.ofIndex j +:+ "]") 0
           (Js.lastIndexOf (base +:+ "root[" +:+ Js.ofIndex j +:+ "]") ".")
         = cut)
  /\ (options ≫= basePath = None -> cut = "")
  /\ (hasChar dot base = false -> cut = "")
  /\ (forall before after,
         base = before +:+ "." +:+ after -> hasChar dot after = false ->
         cut = before).
Proof.
  intros base cut records Hi Hn.
  assert (Htop : forall r : DefaultSchemaElement,
             r ∈ records -> type r = None -> id r = cut).
  { intros r Hr Htype.
    destruct (record_of_text_call _ _ _ _ Hr) as (c & v & Hc & _ & Ht & ->).
    destruct (call_origin fuel options tree c Hc)
      as [(j & _ & _ & Hpath)|(p & t & cs & j & _ & _ & _ & _ & Hpar & _)].
    - rewrite Hpath. apply (parentPathOf_rootPath options j).
    - rewrite Htype, Hpar in Ht. done. }
  destruct (rehypeLyra_at fuel options tree i (text value) [] Hi Hn)
    as (rs & vs & Hvisit & Hrecords).
  destruct fuel as [|fuel]; [done|]. cbn [visitChildren fst parentTagName] in Hrecords.
  fold records in Hrecords. clear Hvisit.
  split; [|split; [|split; [done|split; [|split; [|split]]]]].
  - destruct (addRecords_adds value None (rootPath options i) rs (strategyOf options))
      as (r0 & before & Hr0 & Htype0 & Hcontent0).
    destruct (addVisits_keeps
                (fun r => type r = None /\
                          exists before after, content r = before +:+ value +:+ after)
                (strategyOf options) vs) with
      (records := addRecords value None (rootPath options i) rs (strategyOf options))
      as (r & Hr & Htype & before' & after' & Hcontent).
    + intros more r [Htype (b & a & Hc)]. split; [done|].
      exists b, (a +:+ " " +:+ more). cbn [withMoreContent content].
      by rewrite Hc, !app_assoc_string.
    + exists r0. split; [done|]. split; [done|]. exists before, "".
      by rewrite string_app_nil_r.
    + rewrite <- Hrecords in Hr. exists r, before', after'.
      split; [done|]. split; [done|]. split; [by apply Htop|done].
  - intros Hmerge. rewrite Hrecords.
    replace (mkRecord None value cut)
      with (newRecordOf value None (rootPath options i)).
    + by apply addVisits_standalone.
    + unfold newRecordOf. f_equal. apply (parentPathOf_rootPath options i).
  - intros j. apply (parentPathOf_rootPath options j).
  - intros Hnone. subst cut base. by rewrite Hnone.
  - apply parentPathOf_dotless.
  - intros before after Hbase Hafter. subst cut. rewrite Hbase.
    by apply parentPathOf_dotted.
Qed.

End IdFacts.

Lemma top_level_text_id_witness :
  let H := Example.hast [] [] in
  let options := Some (mkOptions None (Some split) (Some "docs/a.html/")) in
  let tree := root [comment "c"; text "hello"; element "p" [text "A"]] in
  mkRecord None "hello" "docs/a" ∈ fst (rehypeLyra 2 [] options tree)
  /\ (exists (r : DefaultSchemaElement) (before after : string),
         r ∈ fst (rehypeLyra 2 [] None tree) /\ type r = None /\ id r = "" /\
         content r = before +:+ "hello" +:+ after).
Proof.
  intros H options tree. split.
  - refine (proj1 (proj2
              (top_level_text_id 2 options tree 1 "hello" eq_refl eq_refl)) _).
    discriminate.
  - exact (proj1 (top_level_text_id 2 None tree 1 "hello" eq_refl eq_refl)).
Defined.

Section DottedTag.
Context `{Hast}.

(** A transform that answers for the heading only leaves every other
    element as it is, for any collaborators. *)
Lemma transformedOf_other (change : NodeContent.t -> NodeContent.t)
    (strategy : option MergeStrategy) (base : option string)
    (t : string) (cs : list Content) :
  String.eqb t "h1" = false ->
  transformedOf (Some (mkOptions (Some (Example.onH1 change)) strategy base))
    (element t cs)
  = Some (element t cs).
Proof.
  intros Ht.
  unfold transformedOf, transformFnOf, applyTransform, Example.onH1.
  cbn [mbind option_bind transformFn prepareNode NodeContent.tag tagNameOf
       default from_option].
  unfold Datatypes.id. rewrite Ht.
  unfold applyChanges, prepareNode.
  cbn [NodeContent.raw NodeContent.tag NodeContent.content withTagName
       tagNameOf default from_option].
  unfold Datatypes.id. by rewrite !String.eqb_refl.
Qed.

(** A change of the tag alone renames the heading, when the text of an
    element does not depend on its tag name. *)
Lemma transformedOf_rename (t' : string)
    (strategy : option MergeStrategy) (base : option string)
    (cs : list Content) :
  toString (element t' cs) = toString (element "h1" cs) ->
  transformedOf
    (Some (mkOptions
             (Some (Example.onH1 (fun node =>
                      NodeContent.mk t' (NodeContent.raw node)
                        (NodeContent.content node))))
             strategy base))
    (element "h1" cs)
  = Some (element t' cs).
Proof.
  intros Htext.
  unfold transformedOf, transformFnOf, applyTransform, Example.onH1.
  cbn [mbind option_bind transformFn prepareNode NodeContent.tag tagNameOf
       default from_option].
  unfold Datatypes.id. change (String.eqb "h1" "h1") with true. cbn iota.
  unfold applyChanges, prepareNode.
  cbn [NodeContent.raw NodeContent.tag NodeContent.content withTagName
       tagNameOf default from_option].
  by rewrite Htext, !String.eqb_refl.
Qed.

(** C6 at an element whose tag name has a dot.  The test of the
    repository renames the heading of [tests/fixtures/h1.html] to [h2] and
    expects the id [root[0].html[1].body[0]], the path of the heading; with
    the same transform answering the tag [x.y], the heading is visited at
    the same path and its text node at [root[0].html[1].body[0].x.y[0]], and
    the id of the record is [root[0].html[1].body[0].x]: the path cut at the
    dot of the tag name, not the path of the heading.  This holds for any
    collaborators whose [toString] does not read the tag name of an
    element, at whatever path the heading is visited. *)
Theorem dotted_tag_record_id :
  (forall (t t' : string) (cs : list Content),
      toString (element t cs) = toString (element t' cs)) ->
  rehypeLyra 4 [] (Example.withTransform Example.renameH1) Example.heading
  = ([mkRecord (Some "h2") "Heading"
        "tests/fixtures/h1.html/root[0].html[1].body[0]"], Normal)
  /\ rehypeLyra 4 [] (Example.withTransform Example.dotH1) Example.heading
     = ([mkRecord (Some "x.y") "Heading"
           "tests/fixtures/h1.html/root[0].html[1].body[0].x"], Normal)
  /\ (forall (parent : Parent) (p : string),
         visitChildren 2 (element "h1" [text "Heading"]) parent p []
           (Example.withTransform Example.dotH1)
         = ([mkRecord (Some "x.y") "Heading" (p +:+ ".x")], Normal))
  /\ (forall (p a b : string) (i : nat),
         hasChar dot b = false ->
         Js.substring (p +:+ "." +:+ (a +:+ "." +:+ b) +:+ "[" +:+ Js.ofIndex i +:+ "]") 0
           (Js.lastIndexOf
              (p +:+ "." +:+ (a +:+ "." +:+ b) +:+ "[" +:+ Js.ofIndex i +:+ "]") ".")
         = p +:+ "." +:+ a)
  /\ "tests/fixtures/h1.html/root[0].html[1].body[0].x"
     <> "tests/fixtures/h1.html/root[0].html[1].body[0]".
Proof.
  intros Htext.
  assert (Hcut : forall (p a b : string) (i : nat),
             hasChar dot b = false ->
             parentPathOf (childPath p (a +:+ "." +:+ b) i) = p +:+ "." +:+ a).
  { intros p a b i Hb.
    replace (childPath p (a +:+ "." +:+ b) i)
      with ((p +:+ "." +:+ a) +:+ "." +:+ (b +:+ "[" +:+ Js.ofIndex i +:+ "]"))
      by (unfold childPath; by rewrite !app_assoc_string).
    apply parentPathOf_dotted.
    rewrite !hasChar_app, Hb, hasChar_ofIndex by done. done. }
  assert (Hh1 : forall (parent : Parent) (p : string) (t' : string),
             visitChildren 2 (element "h1" [text "Heading"]) parent p []
               (Example.withTransform
                  (Example.onH1 (fun node =>
                     NodeContent.mk t' (NodeContent.raw node)
                       (NodeContent.content node))))
             = ([mkRecord (Some t') "Heading" (parentPathOf (childPath p t' 0))],
                Normal)).
  { intros parent p t'. cbn [visitChildren]. unfold Example.withTransform.
    rewrite transformedOf_rename by apply Htext. reflexivity. }
  assert (Hwalk : forall t' : string,
             rehypeLyra 4 []
               (Example.withTransform
                  (Example.onH1 (fun node =>
                     NodeContent.mk t' (NodeContent.raw node)
                       (NodeContent.content node))))
               Example.heading
             = ([mkRecord (Some t') "Heading"
                   (parentPathOf
                      (childPath "tests/fixtures/h1.html/root[0].html[1].body[0]" t' 0))],
                Normal)).
  { intros t'. unfold rehypeLyra, forEach, Example.heading, Example.withTransform.
    cbn [rootChildren forEachFrom visitChildren].
    rewrite (transformedOf_other _ _ _ "html") by reflexivity.
    unfold forEach. cbn [forEachFrom visitChildren].
    rewrite (transformedOf_other _ _ _ "head") by reflexivity.
    rewrite (transformedOf_other _ _ _ "body") by reflexivity.
    unfold forEach. cbn [forEachFrom visitChildren].
    rewrite transformedOf_rename by apply Htext. reflexivity. }
  split; [apply (Hwalk "h2")|]. split; [apply (Hwalk "x.y")|].
  split; [|split; [exact Hcut|done]].
  intros parent p. unfold Example.dotH1. rewrite (Hh1 parent p "x.y").
  pose proof (Hcut p "x" "y" 0%nat eq_refl) as Hx.
  change ("x" +:+ "." +:+ "y") with "x.y" in Hx. by rewrite Hx.
Qed.

End DottedTag.

Lemma dotted_tag_record_id_witness :
  rehypeLyra (H := Example.lib) 4 [] (Example.withTransform Example.dotH1)
    Example.heading
  = ([mkRecord (Some "x.y") "Heading"
        "tests/fixtures/h1.html/root[0].html[1].body[0].x"], Normal).
Proof.
  refine (proj1 (proj2 (dotted_tag_record_id (H := Example.lib) _))).
  intros t t' cs. reflexivity.
Defined.

(** ** The order of the records *)

Lemma concat_snoc (sep : string) (xs : list string) (y : string) :
  xs <> [] ->
  String.concat sep (xs ++ [y]) = String.concat sep xs +:+ sep +:+ y.
Proof.
  induction xs as [|x xs IH]; [done|]. intros _.
  destruct xs as [|x' xs]; [done|].
  change (String.concat sep ((x :: x' :: xs) ++ [y]))
    with (x +:+ sep +:+ String.concat sep ((x' :: xs) ++ [y])).
  rewrite IH by done.
  change (String.concat sep (x :: x' :: xs))
    with (x +:+ sep +:+ String.concat sep (x' :: xs)).
  by rewrite !app_assoc_string.
Qed.

Lemma joined_singleton (vs : list Visit) (k : nat) (v : Visit) :
  vs !! k = Some v -> joined vs [k] = visitValue v.
Proof. intros Hk. unfold joined. simpl. by rewrite Hk. Qed.

Lemma joined_snoc (vs : list Visit) (o : list nat) (k first : nat) (v v0 : Visit) :
  vs !! k = Some v -> head o = Some first -> vs !! first = Some v0 ->
  joined vs (o ++ [k]) = joined vs o +:+ " " +:+ visitValue v.
Proof.
  intros Hk Hfirst Hv0. unfold joined. rewrite omap_app. simpl. rewrite Hk.
  simpl. apply concat_snoc. destruct o as [|a o]; [done|].
  injection Hfirst as ->. simpl. by rewrite Hv0.
Qed.

Lemma explains_new (vs : list Visit) (k : nat) (v : Visit) :
  vs !! k = Some v ->
  explains vs (newRecordOf (visitValue v) (visitTag v) (visitPath v)) [k].
Proof.
  intros Hk. split; [by rewrite (joined_singleton _ _ _ Hk)|].
  split; [repeat constructor|]. split.
  - repeat constructor. by apply lookup_lt_Some in Hk.
  - by exists k, v.
Qed.

Lemma explains_more (vs : list Visit) (k : nat) (v : Visit)
    (r : DefaultSchemaElement) (o : list nat) :
  vs !! k = Some v -> explains vs r o -> Forall (fun a => a < k) o ->
  explains vs (withMoreContent (visitValue v) r) (o ++ [k]).
Proof.
  intros Hk (Hcontent & Hsorted & Hlen & first & v0 & Hfirst & Hv0 & Ht & Hi) Hlt.
  split; [|split; [|split]].
  - cbn [withMoreContent content]. rewrite Hcontent. symmetry.
    by eapply joined_snoc.
  - apply StronglySorted_app_2; [|done|repeat constructor].
    intros a b Ha ->%list_elem_of_singleton.
    by eapply Forall_forall in Hlt.
  - apply Forall_app. split; [done|]. repeat constructor.
    by apply lookup_lt_Some in Hk.
  - exists first, v0. split; [|done].
    destruct o; [done|]. done.
Qed.

Lemma ordered_new (k : nat) (o : list nat) :
  Forall (fun a => a < k) o -> ordered o [k].
Proof.
  intros Hlt. left. intros a b Ha ->%list_elem_of_singleton.
  by eapply Forall_forall in Hlt.
Qed.

Lemma ordered_more (k : nat) (o o' : list nat) :
  Forall (fun a => a < k) o -> ordered o o' -> ordered o (o' ++ [k]).
Proof.
  intros Hlt [Hin|Hpart]; [left|right].
  - intros a b Ha [Hb| ->%list_elem_of_singleton]%elem_of_app; [by apply Hin|].
    by eapply Forall_forall in Hlt.
  - intros a Ha. apply elem_of_app. left. by apply Hpart.
Qed.

Lemma ordered_part (k : nat) (o : list nat) : ordered [k] (o ++ [k]).
Proof.
  right. intros a ->%list_elem_of_singleton. apply elem_of_app. right.
  by apply list_elem_of_singleton.
Qed.

Lemma addOrigin_new (k : nat) (strategy : MergeStrategy)
    (origins : list (list nat)) :
  addOrigin k false strategy origins
  = origins ++ match strategy with both => [[k]; [k]] | _ => [[k]] end.
Proof. by destruct strategy. Qed.

Lemma addOrigin_last (k : nat) (strategy : MergeStrategy)
    (init : list (list nat)) (o : list nat) :
  addOrigin k true strategy (init ++ [o])
  = match strategy with
    | merge => init ++ [o ++ [k]]
    | split => init ++ [o; [k]]
    | both => init ++ [[k]; o ++ [k]]
    end.
Proof.
  destruct strategy; unfold addOrigin; cbn [negb].
  - rewrite last_index_snoc, alter_app_r_alt by lia. by rewrite Nat.sub_diag.
  - by rewrite <- app_assoc.
  - rewrite last_index_snoc, take_app_length, drop_app_length.
    rewrite length_app. cbn [length].
    change (init ++ [k] :: [o]) with (init ++ [[k]] ++ [o]).
    rewrite app_assoc, alter_app_r_alt by (rewrite length_app; simpl; lia).
    rewrite length_app. cbn [length].
    replace (length init + 1 - (length init + 1))%nat with 0%nat by lia.
    by rewrite <- app_assoc.
Qed.

Lemma StronglySorted_pair {A : Type} (R : relation A) (x y : A) :
  R x y -> StronglySorted R [x; y].
Proof.
  intros Hxy. apply SSorted_cons.
  - apply SSorted_cons; [apply SSorted_nil|apply Forall_nil_2].
  - apply Forall_cons_2; [done|apply Forall_nil_2].
Qed.

(** One call keeps the records explained by their origins, and the origins
    ordered. *)
Lemma addVisit_step (all : list Visit) (strategy : MergeStrategy) (k : nat)
    (v : Visit) (records : list DefaultSchemaElement)
    (origins : list (list nat)) :
  all !! k = Some v ->
  Forall2 (explains all) records origins ->
  Forall (Forall (fun a => a < k)) origins ->
  StronglySorted ordered origins ->
  Forall2 (explains all) (addVisit strategy records v)
    (addOrigin k (isRecordMergeable (parentPathOf (visitPath v)) (visitTag v) records)
       strategy origins)
  /\ Forall (Forall (fun a => a < S k))
       (addOrigin k (isRecordMergeable (parentPathOf (visitPath v)) (visitTag v) records)
          strategy origins)
  /\ StronglySorted ordered
       (addOrigin k (isRecordMergeable (parentPathOf (visitPath v)) (visitTag v) records)
          strategy origins).
Proof.
  intros Hk Hex Hlt Hsorted.
  assert (Hweak : forall os : list (list nat),
             Forall (Forall (fun a => a < k)) os ->
             Forall (Forall (fun a => a < S k)) os).
  { intros os Hos. eapply Forall_impl; [exact Hos|]. intros o Ho.
    eapply Forall_impl; [exact Ho|]. intros a Ha. simpl in *. lia. }
  assert (Hk1 : Forall (fun a => a < S k) [k]) by (repeat constructor).
  pose proof (explains_new all k v Hk) as Hnew.
  unfold addVisit.
  destruct (isRecordMergeable (parentPathOf (visitPath v)) (visitTag v) records)
    eqn:Hm.
  - destruct (isRecordMergeable_last _ _ _ Hm) as (init & l & ->).
    apply Forall2_app_inv_l in Hex as (oinit & olast & Hinit & Hlast & ->).
    apply Forall2_cons_inv_l in Hlast as (o & onil & Hl & Hnil & ->).
    apply Forall2_nil_inv_l in Hnil as ->.
    apply Forall_app in Hlt as [Hltinit Hlto].
    apply Forall_cons in Hlto as [Hlto _].
    apply StronglySorted_app in Hsorted as (Hcross & Hsinit & _).
    assert (Hcross' : forall o1, o1 ∈ oinit -> ordered o1 (o ++ [k])).
    { intros o1 Ho1. apply ordered_more.
      - by eapply Forall_forall in Hltinit.
      - apply Hcross; [done|]. by apply list_elem_of_singleton. }
    assert (Hcrossk : forall o1, o1 ∈ oinit -> ordered o1 [k]).
    { intros o1 Ho1. apply ordered_new. by eapply Forall_forall in Hltinit. }
    assert (Hmore : Forall (fun a => a < S k) (o ++ [k])).
    { apply Forall_app. split; [|done]. eapply Forall_impl; [exact Hlto|].
      intros a Ha. simpl in *. lia. }
    rewrite addOrigin_last. destruct strategy.
    + rewrite addRecords_merge_last by done. split; [|split].
      * apply Forall2_app; [done|]. constructor; [|constructor].
        by apply explains_more.
      * apply Forall_app. split; [by apply Hweak|].
        repeat (constructor; [done|]). constructor.
      * apply StronglySorted_app_2; [|done|repeat constructor].
        intros o1 o2 Ho1 ->%list_elem_of_singleton. by apply Hcross'.
    + rewrite addRecords_split, <- app_assoc. split; [|split].
      * apply Forall2_app; [done|].
        constructor; [done|]. by constructor; [|constructor].
      * apply Forall_app. split; [by apply Hweak|].
        constructor; [|by constructor].
        eapply Forall_impl; [exact Hlto|]. intros a Ha. simpl in *. lia.
      * apply StronglySorted_app_2; [| done |].
        -- intros o1 o2 Ho1 [->|[->|[]%elem_of_nil]%elem_of_cons]%elem_of_cons.
           ++ apply Hcross; [done|]. by apply list_elem_of_singleton.
           ++ by apply Hcrossk.
        -- apply StronglySorted_pair. by apply ordered_new.
    + rewrite addRecords_both_last by done. split; [|split].
      * apply Forall2_app; [done|].
        constructor; [done|]. constructor; [|constructor].
        by apply explains_more.
      * apply Forall_app. split; [by apply Hweak|].
        repeat (constructor; [done|]). constructor.
      * apply StronglySorted_app_2; [| done |].
        -- intros o1 o2 Ho1 [->|[->|[]%elem_of_nil]%elem_of_cons]%elem_of_cons.
           ++ by apply Hcrossk.
           ++ by apply Hcross'.
        -- apply StronglySorted_pair. apply ordered_part.
  - assert (Hcrossk : forall o1, o1 ∈ origins -> ordered o1 [k]).
    { intros o1 Ho1. apply ordered_new. by eapply Forall_forall in Hlt. }
    rewrite addOrigin_new. destruct strategy.
    + rewrite addRecords_merge_new by done. split; [|split].
      * apply Forall2_app; [done|]. by constructor; [|constructor].
      * apply Forall_app. split; [by apply Hweak|].
        repeat (constructor; [done|]). constructor.
      * apply StronglySorted_app_2; [|done|repeat constructor].
        intros o1 o2 Ho1 ->%list_elem_of_singleton. by apply Hcrossk.
    + rewrite addRecords_split. split; [|split].
      * apply Forall2_app; [done|]. by constructor; [|constructor].
      * apply Forall_app. split; [by apply Hweak|].
        repeat (constructor; [done|]). constructor.
      * apply StronglySorted_app_2; [|done|repeat constructor].
        intros o1 o2 Ho1 ->%list_elem_of_singleton. by apply Hcrossk.
    + rewrite addRecords_both_new by done. split; [|split].
      * apply Forall2_app; [done|].
        constructor; [done|]. by constructor; [|constructor].
      * apply Forall_app. split; [by apply Hweak|].
        repeat (constructor; [done|]). constructor.
      * apply StronglySorted_app_2; [| done |].
        -- intros o1 o2 Ho1 [->|[->|[]%elem_of_nil]%elem_of_cons]%elem_of_cons;
             by apply Hcrossk.
        -- apply StronglySorted_pair. right. by intros a.
Qed.

Lemma addVisitsFrom_records (strategy : MergeStrategy) (vs : list Visit)
    (k : nat) (records : list DefaultSchemaElement) (origins : list (list nat)) :
  fst (addVisitsFrom strategy vs k (records, origins))
  = addVisits strategy vs records.
Proof.
  revert k records origins.
  induction vs as [|v vs IH]; intros k records origins; [done|].
  cbn [addVisitsFrom]. by rewrite IH.
Qed.

Lemma addVisitsFrom_explains (all : list Visit) (strategy : MergeStrategy)
    (vs : list Visit) (k : nat) (records : list DefaultSchemaElement)
    (origins : list (list nat)) :
  drop k all = vs ->
  Forall2 (explains all) records origins ->
  Forall (Forall (fun a => a < k)) origins ->
  StronglySorted ordered origins ->
  Forall2 (explains all) (addVisits strategy vs records)
    (snd (addVisitsFrom strategy vs k (records, origins)))
  /\ StronglySorted ordered
       (snd (addVisitsFrom strategy vs k (records, origins))).
Proof.
  revert k records origins.
  induction vs as [|v vs IH]; intros k records origins Hdrop Hex Hlt Hsorted;
    [done|].
  assert (Hk : all !! k = Some v).
  { rewrite <- (Nat.add_0_r k), <- lookup_drop, Hdrop. done. }
  destruct (addVisit_step all strategy k v records origins Hk Hex Hlt Hsorted)
    as (Hex' & Hlt' & Hsorted').
  cbn [addVisitsFrom]. unfold addVisits. cbn [foldl].
  apply (IH (S k)); [|done..].
  rewrite (drop_S _ _ _ Hk) in Hdrop. by injection Hdrop.
Qed.

Lemma StronglySorted_lookup {A : Type} (R : relation A) (l : list A)
    (i j : nat) (x y : A) :
  StronglySorted R l -> i < j -> l !! i = Some x -> l !! j = Some y -> R x y.
Proof.
  intros Hsorted Hij Hi Hj. rewrite <- (take_drop j l) in Hsorted.
  eapply StronglySorted_app_1_elem_of; [done|..].
  - apply list_elem_of_lookup. exists i. by rewrite lookup_take_lt.
  - apply list_elem_of_lookup. exists 0%nat. by rewrite lookup_drop, Nat.add_0_r.
Qed.

(** A call of [addRecords] keeps the records in place: it adds at the end,
    or just before the last record, whose content alone it extends. *)
Lemma addRecords_keeps_order (newContent : string) (tag : option string)
    (path : string) (records : list DefaultSchemaElement)
    (strategy : MergeStrategy) :
  (exists added, addRecords newContent tag path records strategy = records ++ added)
  \/ (exists init lastRecord added,
         records = init ++ [lastRecord] /\
         addRecords newContent tag path records strategy
         = init ++ added ++ [withMoreContent newContent lastRecord]).
Proof.
  destruct (isRecordMergeable (parentPathOf path) tag records) eqn:Hm.
  - destruct (isRecordMergeable_last _ _ _ Hm) as (init & l & ->).
    destruct strategy.
    + right. exists init, l, []. by rewrite addRecords_merge_last.
    + left. eexists. apply addRecords_split.
    + right. exists init, l, [newRecordOf newContent tag path].
      by rewrite addRecords_both_last.
  - left. destruct strategy; eexists.
    + by apply addRecords_merge_new.
    + apply addRecords_split.
    + by apply addRecords_both_new.
Qed.

(** Under the merge and the split strategy a call of [addRecords] keeps
    the origins in the order of the visits: the text nodes of a record are
    all visited before those of every later record. *)
Lemma addOrigin_strict (k : nat) (mergeable : bool) (strategy : MergeStrategy)
    (origins : list (list nat)) :
  strategy <> both ->
  Forall (Forall (fun a => a < k)) origins ->
  StronglySorted inVisitOrder origins ->
  Forall (Forall (fun a => a < S k)) (addOrigin k mergeable strategy origins)
  /\ StronglySorted inVisitOrder (addOrigin k mergeable strategy origins).
Proof.
  intros Hboth Hlt Hsorted.
  assert (Hweak : forall o : list nat,
             Forall (fun a => a < k) o -> Forall (fun a => a < S k) o).
  { intros o Ho. eapply Forall_impl; [exact Ho|]. intros a Ha. simpl in *. lia. }
  assert (Hnew : Forall (Forall (fun a => a < S k)) (origins ++ [[k]])
                 /\ StronglySorted inVisitOrder (origins ++ [[k]])).
  { split.
    - apply Forall_app. split.
      + eapply Forall_impl; [exact Hlt|]. exact Hweak.
      + repeat constructor.
    - apply StronglySorted_app_2; [|done|repeat constructor].
      intros o1 o2 Ho1 ->%list_elem_of_singleton a b Ha ->%list_elem_of_singleton.
      eapply Forall_forall in Hlt; [|exact Ho1].
      by eapply Forall_forall in Hlt. }
  destruct strategy; [|done|done]. destruct mergeable; [|done].
  unfold addOrigin. cbn [negb].
  clear Hnew. induction origins as [|o init _] using rev_ind;
    [split; constructor|].
  rewrite last_index_snoc, alter_app_r_alt by lia.
  rewrite Nat.sub_diag. cbn [alter list_alter].
  apply Forall_app in Hlt as [Hinit Ho]. apply Forall_cons in Ho as [Ho _].
  apply StronglySorted_app in Hsorted as (Hcross & Hsinit & _). split.
  - apply Forall_app. split.
    + eapply Forall_impl; [exact Hinit|]. exact Hweak.
    + constructor; [|constructor]. apply Forall_app. split; [by apply Hweak|].
      repeat constructor.
  - apply StronglySorted_app_2; [|done|repeat constructor].
    intros o1 o2 Ho1 ->%list_elem_of_singleton a b Ha
      [Hb| ->%list_elem_of_singleton]%elem_of_app.
    + apply (Hcross o1 o); [done|by apply list_elem_of_singleton|done..].
    + eapply Forall_forall in Hinit; [|exact Ho1].
      by eapply Forall_forall in Hinit.
Qed.

Lemma addVisitsFrom_strict (strategy : MergeStrategy) (vs : list Visit) :
  strategy <> both ->
  forall (k : nat) (records : list DefaultSchemaElement)
         (origins : list (list nat)),
    Forall (Forall (fun a => a < k)) origins ->
    StronglySorted inVisitOrder origins ->
    StronglySorted inVisitOrder
      (snd (addVisitsFrom strategy vs k (records, origins))).
Proof.
  intros Hboth. induction vs as [|v vs IH]; intros k records origins Hlt Hsorted;
    [done|].
  cbn [addVisitsFrom].
  destruct (addOrigin_strict k
              (isRecordMergeable (parentPathOf (visitPath v)) (visitTag v) records)
              strategy origins Hboth Hlt Hsorted) as [Hlt' Hsorted'].
  by apply IH.
Qed.

Section OrderFacts.
Context `{Hast}.

(** C7 as amended: for every tree and strategy, each record of the walk
    holds the texts of some text nodes, in the order of their visits.  Of
    two records that hold different text nodes, the one of the earlier
    visited text node appears no later, with one exception under the both
    strategy: the record that follows may hold an earlier text node when
    the text nodes of the other record are all among its own (it is the
    merged record, which comes after the records of the text nodes it
    merges).  Under the merge and the split strategy there is no exception:
    the order is as the claim states it, and no text node is held by two
    records.  Two records with no text node in common are in the order of
    their text nodes under every strategy, and a call of [addRecords] never
    moves a record. *)
Theorem records_keep_visit_order (fuel : nat) (options : option PopulateOptions)
    (tree : Root) :
  let visits := textVisits (fst (rehypeLyraCalls fuel options tree)) in
  let records := fst (rehypeLyra fuel [] options tree) in
  let origins := originsOf (strategyOf options) visits in
  Forall2 (explains visits) records origins
  /\ (strategyOf options <> both ->
      forall (i j : nat) (oi oj : list nat) (a b : nat),
        origins !! i = Some oi -> origins !! j = Some oj ->
        a ∈ oi -> b ∈ oj -> a < b -> i <= j)
  /\ (strategyOf options <> both ->
      forall (i j : nat) (oi oj : list nat) (a : nat),
        i <> j -> origins !! i = Some oi -> origins !! j = Some oj ->
        a ∈ oi -> a ∉ oj)
  /\ (forall (i j : nat) (oi oj : list nat) (a b : nat),
         origins !! i = Some oi -> origins !! j = Some oj ->
         a ∈ oi -> b ∈ oj -> a < b ->
         i <= j \/ (strategyOf options = both /\ partOf oj oi))
  /\ (forall (i j : nat) (oi oj : list nat),
         i < j -> origins !! i = Some oi -> origins !! j = Some oj ->
         (forall a, a ∈ oi -> a ∉ oj) ->
         inVisitOrder oi oj)
  /\ (forall (newContent : string) (tag : option string) (path : string)
             (rs : list DefaultSchemaElement) (strategy : MergeStrategy),
         (exists added,
             addRecords newContent tag path rs strategy = rs ++ added)
         \/ (exists init lastRecord added,
                rs = init ++ [lastRecord] /\
                addRecords newContent tag path rs strategy
                = init ++ added ++ [withMoreContent newContent lastRecord])).
Proof.
  intros visits records origins. subst records origins.
  rewrite rehypeLyra_calls. cbn [fst]. fold visits. unfold originsOf.
  destruct (addVisitsFrom_explains visits (strategyOf options) visits 0 [] [])
    as [Hex Hsorted]; [done|constructor|constructor|constructor|].
  assert (Hpair : forall (i j : nat) (oi oj : list nat),
             i < j ->
             snd (addVisitsFrom (strategyOf options) visits 0 ([], [])) !! i = Some oi ->
             snd (addVisitsFrom (strategyOf options) visits 0 ([], [])) !! j = Some oj ->
             inVisitOrder oi oj \/ partOf oi oj).
  { intros i j oi oj Hij Hi Hj.
    by apply (StronglySorted_lookup ordered _ i j oi oj Hsorted). }
  assert (Hbefore : strategyOf options <> both ->
            forall (i j : nat) (oi oj : list nat),
              i < j ->
              snd (addVisitsFrom (strategyOf options) visits 0 ([], [])) !! i = Some oi ->
              snd (addVisitsFrom (strategyOf options) visits 0 ([], [])) !! j = Some oj ->
              inVisitOrder oi oj).
  { intros Hboth i j oi oj Hij Hi Hj.
    pose proof (addVisitsFrom_strict (strategyOf options) visits Hboth 0 [] []
                  ltac:(constructor) ltac:(constructor)) as Hs.
    by apply (StronglySorted_lookup inVisitOrder _ i j oi oj Hs). }
  assert (Hstrict : strategyOf options <> both ->
            forall (i j : nat) (oi oj : list nat) (a b : nat),
              snd (addVisitsFrom (strategyOf options) visits 0 ([], [])) !! i = Some oi ->
              snd (addVisitsFrom (strategyOf options) visits 0 ([], [])) !! j = Some oj ->
              a ∈ oi -> b ∈ oj -> a < b -> i <= j).
  { intros Hboth i j oi oj a b Hi Hj Ha Hb Hab.
    destruct (le_lt_dec i j) as [Hle|Hlt]; [done|].
    pose proof (Hbefore Hboth j i oj oi Hlt Hj Hi b a Hb Ha). lia. }
  split; [done|]. split; [done|]. split; [|split; [|split]];
    [| | |intros; apply addRecords_keeps_order].
  - intros Hboth i j oi oj a Hij Hi Hj Ha Ha'.
    destruct (lt_eq_lt_dec i j) as [[Hlt|Heq]|Hlt]; [|done|].
    + pose proof (Hbefore Hboth i j oi oj Hlt Hi Hj a a Ha Ha'). lia.
    + pose proof (Hbefore Hboth j i oj oi Hlt Hj Hi a a Ha' Ha). lia.
  - intros i j oi oj a b Hi Hj Ha Hb Hab.
    destruct (le_lt_dec i j) as [Hle|Hlt]; [by left|].
    assert (Hdec : strategyOf options = both \/ strategyOf options <> both)
      by (destruct (strategyOf options); auto).
    destruct Hdec as [Hboth|Hboth].
    + destruct (Hpair j i oj oi Hlt Hj Hi) as [Hin|Hpart]; [|by right].
      specialize (Hin b a Hb Ha). lia.
    + left. by apply (Hstrict Hboth i j oi oj a b).
  - intros i j oi oj Hij Hi Hj Hdisjoint.
    destruct (Hpair i j oi oj Hij Hi Hj) as [Hin|Hpart]; [done|].
    destruct (Forall2_lookup_r _ _ _ _ _ Hex Hi)
      as (r & _ & _ & _ & _ & first & v & Hfirst & _).
    exfalso. apply (Hdisjoint first).
    + destruct oi; [done|]. injection Hfirst as ->. by left.
    + apply Hpart. destruct oi; [done|]. injection Hfirst as ->. by left.
Qed.

End OrderFacts.

Lemma records_keep_visit_order_witness :
  let H := Example.hast [] [] in
  let visits :=
    textVisits (fst (rehypeLyraCalls 3 None Example.itemInBetween)) in
  originsOf merge visits = [[0]; [1]; [2]]
  /\ (forall (i j : nat) (oi oj : list nat) (a b : nat),
         originsOf merge visits !! i = Some oi ->
         originsOf merge visits !! j = Some oj ->
         a ∈ oi -> b ∈ oj -> a < b -> i <= j)
  /\ inVisitOrder [0] [1].
Proof.
  intros H visits. split; [reflexivity|]. split.
  - refine (proj1 (proj2
              (records_keep_visit_order (H := H) 3 None Example.itemInBetween)) _).
    discriminate.
  - refine (proj1 (proj2 (proj2 (proj2 (proj2
              (records_keep_visit_order (H := H) 3
                 (Example.withStrategy both) Example.twoParagraphs)))))
              0 1 [0] [1] _ eq_refl eq_refl _).
    + lia.
    + intros a ->%list_elem_of_singleton Hin%list_elem_of_singleton.
      discriminate.
Defined.

(** C7 as stated fails under the both strategy: for [<p>A</p><p>B</p>] the
    records are [A], [B], [A B]; the last one holds the text of the first
    text node and the second one the text of the second text node, yet the
    last one comes later. *)
Lemma visit_order_counterexample :
  let H := Example.hast [] [] in
  let options := Example.withStrategy both in
  let visits :=
    textVisits (fst (rehypeLyraCalls 3 options Example.twoParagraphs)) in
  fst (rehypeLyra 3 [] options Example.twoParagraphs)
  = [mkRecord (Some "p") "A" "root[0].div[0]";
     mkRecord (Some "p") "B" "root[0].div[1]";
     mkRecord (Some "p") "A B" "root[0].div[0]"]
  /\ originsOf both visits = [[0]; [1]; [0; 1]]
  /\ ~ (forall (i j : nat) (oi oj : list nat) (a b : nat),
           originsOf both visits !! i = Some oi ->
           originsOf both visits !! j = Some oj ->
           a ∈ oi -> b ∈ oj -> a < b -> i <= j).
Proof.
  intros H options visits. split; [reflexivity|]. split; [reflexivity|].
  intros Hclaim.
  specialize (Hclaim 2 1 [0; 1] [1] 0 1 eq_refl eq_refl).
  assert (2 <= 1); [|lia].
  apply Hclaim; [by left|by left|lia].
Qed.

(** ** The scenarios of the tests *)

Example stores_the_title :
  rehypeLyra (H := Example.lib) 4 []
    (Some (mkOptions None None (Some "tests/fixtures/index.html/"))) Example.titled
  = ([mkRecord (Some "title") "Test"
        "tests/fixtures/index.html/root[1].html[0].head[1]"], Normal).
Proof. reflexivity. Qed.

Example merges_two_paragraphs :
  rehypeLyra (H := Example.lib) 3 [] None Example.twoParagraphs
  = ([mkRecord (Some "p") "A B" "root[0].div[0]"], Normal).
Proof. reflexivity. Qed.

Example splits_two_paragraphs :
  rehypeLyra (H := Example.lib) 3 [] (Example.withStrategy split) Example.twoParagraphs
  = ([mkRecord (Some "p") "A" "root[0].div[0]";
      mkRecord (Some "p") "B" "root[0].div[1]"], Normal).
Proof. reflexivity. Qed.

Example keeps_both_for_two_paragraphs :
  rehypeLyra (H := Example.lib) 3 [] (Example.withStrategy both) Example.twoParagraphs
  = ([mkRecord (Some "p") "A" "root[0].div[0]";
      mkRecord (Some "p") "B" "root[0].div[1]";
      mkRecord (Some "p") "A B" "root[0].div[0]"], Normal).
Proof. reflexivity. Qed.

Example item_in_between_is_not_merged :
  length (fst (rehypeLyra (H := Example.lib) 3 [] None Example.itemInBetween)) = 3.
Proof. reflexivity. Qed.

Example different_containers_are_not_merged :
  length (fst (rehypeLyra (H := Example.lib) 4 [] None Example.differentContainers)) = 2.
Proof. reflexivity. Qed.

Example transform_changes_the_tag :
  rehypeLyra (H := Example.lib) 4 [] (Example.withTransform Example.renameH1) Example.heading
  = ([mkRecord (Some "h2") "Heading" "tests/fixtures/h1.html/root[0].html[1].body[0]"],
     Normal).
Proof. reflexivity. Qed.

Example transform_changes_the_content :
  rehypeLyra (H := Example.lib) 4 [] (Example.withTransform Example.rewriteH1) Example.heading
  = ([mkRecord (Some "h1") "New content"
        "tests/fixtures/h1.html/root[0].html[1].body[0]"], Normal).
Proof. reflexivity. Qed.

Example transform_raw_wins :
  rehypeLyra (H := Example.lib) 5 [] (Example.withTransform Example.replaceH1) Example.heading
  = ([mkRecord (Some "p") "Hello"
        "tests/fixtures/h1.html/root[0].html[1].body[0].div[0]"], Normal).
Proof. reflexivity. Qed.

(** * Further properties of the code *)

(** ** Cutting paths and file names *)

Lemma string_snoc (s : string) :
  s <> "" -> exists a c, s = a +:+ String c "".
Proof.
  induction s as [|x s IH]; [done|]. intros _.
  destruct s as [|y s].
  - by exists "", x.
  - destruct IH as (a & c & Ha); [done|]. exists (String x a), c.
    by rewrite string_app_cons, <- Ha.
Qed.

Lemma hasChar_bracket_split (s : string) :
  hasChar bracket s = true ->
  exists a b, s = a +:+ "[" +:+ b /\ hasChar bracket b = false.
Proof. apply (hasChar_split bracket). Qed.

(** [pathWithoutLastIndex] keeps a proper prefix of a path that is not
    empty: what precedes the last opening bracket when there is one, and
    the path without its last character when there is none (then
    [lastIndexOf] answers [-1] and [slice(0, -1)] drops one character);
    the empty path stays empty. *)
Theorem pathWithoutLastIndex_prefix (path : string) :
  (hasChar bracket path = true ->
   exists rest,
     hasChar bracket rest = false /\
     path = pathWithoutLastIndex path +:+ "[" +:+ rest)
  /\ (hasChar bracket path = false -> path <> "" ->
      exists c, path = pathWithoutLastIndex path +:+ String c "")
  /\ (path = "" -> pathWithoutLastIndex path = "").
Proof.
  split; [|split].
  - intros Hb. destruct (hasChar_bracket_split _ Hb) as (a & b & -> & Hrest).
    exists b. by rewrite pathWithoutLastIndex_indexed.
  - intros Hb Hne. destruct (string_snoc _ Hne) as (a & c & ->).
    exists c. by rewrite pathWithoutLastIndex_no_bracket.
  - by intros ->.
Qed.

Lemma pathWithoutLastIndex_prefix_witness :
  (exists rest,
      hasChar bracket rest = false /\
      "root[1].html[12]" = pathWithoutLastIndex "root[1].html[12]" +:+ "[" +:+ rest)
  /\ (exists c, "docs/a" = pathWithoutLastIndex "docs/a" +:+ String c "")
  /\ pathWithoutLastIndex "" = "".
Proof.
  split; [|split].
  - apply (proj1 (pathWithoutLastIndex_prefix "root[1].html[12]")). reflexivity.
  - apply (proj1 (proj2 (pathWithoutLastIndex_prefix "docs/a")));
      [reflexivity|discriminate].
  - apply (proj2 (proj2 (pathWithoutLastIndex_prefix ""))). reflexivity.
Defined.

(** A text node below an element with tag [t] (no dot in it) that is the
    child at any index [i] of a node with path-and-tag [slot] merges into a
    last record of type [t'] started below the child at any index [j] of
    [slot'] exactly when the tags and the slots are the same: the indices
    of the two parents and of the text node play no part. *)
Theorem mergeable_same_tag_same_slot (init : list DefaultSchemaElement)
    (slot slot' t t' lastContent : string) (i j k : nat) :
  hasChar dot t = false ->
  isRecordMergeable
    (parentPathOf
       (childPath (slot +:+ "[" +:+ Js.ofIndex i +:+ "]") t k))
    (Some t)
    (init ++ [mkRecord (Some t') lastContent (slot' +:+ "[" +:+ Js.ofIndex j +:+ "]")])
  = true
  <-> t = t' /\ slot = slot'.
Proof.
  intros Ht. rewrite parentPathOf_childPath by done.
  rewrite isRecordMergeable_snoc. cbn [id type].
  rewrite !pathWithoutLastIndex_indexed
    by (rewrite hasChar_app, hasChar_ofIndex by done; done).
  rewrite andb_true_iff, String.eqb_eq. cbn [optionStringEqb].
  rewrite String.eqb_eq. tauto.
Qed.

Lemma mergeable_same_tag_same_slot_witness :
  isRecordMergeable (parentPathOf "root[0].div[7].p[3]") (Some "p")
    [mkRecord (Some "p") "A" "root[0].div[2]"] = true.
Proof.
  apply (mergeable_same_tag_same_slot [] "root[0].div" "root[0].div" "p" "p" "A"
           7 2 3 eq_refl).
  by split.
Defined.

Lemma substring_all (s : string) : String.substring 0 (String.length s) s = s.
Proof. induction s as [|x s IH]; simpl; [done|]. by rewrite IH. Qed.

Lemma substring_suffix (a b : string) :
  String.substring (String.length a) (String.length b) (a +:+ b) = b.
Proof.
  induction a as [|x a IH].
  - rewrite string_app_nil. apply substring_all.
  - rewrite string_app_cons. simpl. apply IH.
Qed.

Lemma sliceFrom_0 (s : string) : Js.sliceFrom s 0 = s.
Proof.
  unfold Js.sliceFrom, Js.relative, Js.length. change (0 <? 0)%Z with false.
  cbv iota. replace (Z.to_nat (Z.min 0 _)) with 0%nat by lia.
  replace (Z.to_nat _) with (String.length s) by lia. apply substring_all.
Qed.

Lemma sliceFrom_length (a b : string) :
  Js.sliceFrom (a +:+ b) (Z.of_nat (String.length a)) = b.
Proof.
  unfold Js.sliceFrom, Js.relative, Js.length. rewrite string_length_app.
  destruct (Z.ltb_spec (Z.of_nat (String.length a)) 0); [lia|].
  replace (Z.to_nat (Z.min _ _)) with (String.length a) by lia.
  replace (Z.to_nat _) with (String.length b) by lia. apply substring_suffix.
Qed.

(** The file type of a file name is what follows its last dot: the
    extension, which is empty when the name ends in a dot; a name without a
    dot is its own file type ([lastIndexOf] answers [-1], so the slice starts
    at [0]). *)
Theorem fileTypeOf_extension (filename : string) :
  (forall stem ext,
      filename = stem +:+ "." +:+ ext -> hasChar dot ext = false ->
      fileTypeOf filename = ext)
  /\ (hasChar dot filename = false -> fileTypeOf filename = filename).
Proof.
  unfold fileTypeOf. split.
  - intros stem ext -> Hext.
    change (Js.lastIndexOf (stem +:+ "." +:+ ext) ".")
      with (Js.lastIndexOf (stem +:+ String dot ext) (String dot "")).
    rewrite lastIndexOf_last by done.
    replace (Z.of_nat (String.length stem) + 1)%Z
      with (Z.of_nat (String.length (stem +:+ "."))).
    + rewrite <- app_assoc_string. apply sliceFrom_length.
    + rewrite string_length_app. simpl. lia.
  - intros Hno. rewrite (lastIndexOf_absent dot) by done. apply sliceFrom_0.
Qed.

Lemma fileTypeOf_extension_witness :
  fileTypeOf "tests/fixtures/index.html" = "html"
  /\ fileTypeOf "docs/notes.v2.md" = "md"
  /\ fileTypeOf "README" = "README".
Proof.
  split; [|split].
  - apply (proj1 (fileTypeOf_extension "tests/fixtures/index.html")
             "tests/fixtures/index" "html"); reflexivity.
  - apply (proj1 (fileTypeOf_extension "docs/notes.v2.md") "docs/notes.v2" "md");
      reflexivity.
  - apply (proj2 (fileTypeOf_extension "README")). reflexivity.
Defined.

(** ** The three strategies side by side *)

Lemma isRecordMergeable_last_eq (path : string) (tag : option string)
    (rs rs' : list DefaultSchemaElement) :
  last rs = last rs' ->
  isRecordMergeable path tag rs = isRecordMergeable path tag rs'.
Proof.
  destruct rs as [|l rs _] using rev_ind; destruct rs' as [|l' rs' _] using rev_ind;
    rewrite ?last_snoc; try done.
  intros [= ->]. by rewrite !isRecordMergeable_snoc.
Qed.

(** One more call keeps the three lists of records in step: the last
    record under both is the last record under merge, the records under
    both are those under split and those under merge, and merge never has
    more records than split. *)
Lemma addVisits_in_step (vs : list Visit) :
  forall b s m : list DefaultSchemaElement,
    last b = last m -> b ≡ₚ s ++ m -> length m <= length s ->
    (s = [] -> m = []) ->
    last (addVisits both vs b) = last (addVisits merge vs m)
    /\ addVisits both vs b ≡ₚ addVisits split vs s ++ addVisits merge vs m
    /\ length (addVisits merge vs m) <= length (addVisits split vs s)
    /\ (addVisits split vs s = [] -> addVisits merge vs m = []).
Proof.
  induction vs as [|v vs IH]; intros b s m Hlast Hperm Hlen Hnil; [done|].
  unfold addVisits. cbn [foldl]. apply IH; unfold addVisit.
  - destruct (isRecordMergeable (parentPathOf (visitPath v)) (visitTag v) m) eqn:Hm.
    + pose proof Hm as Hb. rewrite <- (isRecordMergeable_last_eq _ _ b m Hlast) in Hb.
      destruct (isRecordMergeable_last _ _ _ Hm) as (mi & l & ->).
      destruct (isRecordMergeable_last _ _ _ Hb) as (bi & l' & ->).
      rewrite !last_snoc in Hlast. injection Hlast as ->.
      rewrite addRecords_merge_last, addRecords_both_last by done.
      by rewrite !last_app.
    + pose proof Hm as Hb. rewrite <- (isRecordMergeable_last_eq _ _ b m Hlast) in Hb.
      rewrite addRecords_merge_new, addRecords_both_new by done.
      by rewrite !last_app.
  - rewrite addRecords_split.
    destruct (isRecordMergeable (parentPathOf (visitPath v)) (visitTag v) m) eqn:Hm.
    + pose proof Hm as Hb. rewrite <- (isRecordMergeable_last_eq _ _ b m Hlast) in Hb.
      destruct (isRecordMergeable_last _ _ _ Hm) as (mi & l & ->).
      destruct (isRecordMergeable_last _ _ _ Hb) as (bi & l' & ->).
      rewrite !last_snoc in Hlast. injection Hlast as ->.
      rewrite addRecords_merge_last, addRecords_both_last by done.
      assert (Hbi : bi ≡ₚ s ++ mi).
      { apply (inj (.++ [l])). by rewrite <- app_assoc. }
      rewrite Hbi. solve_Permutation.
    + pose proof Hm as Hb. rewrite <- (isRecordMergeable_last_eq _ _ b m Hlast) in Hb.
      rewrite addRecords_merge_new, addRecords_both_new by done.
      rewrite Hperm. solve_Permutation.
  - rewrite addRecords_split, length_app. cbn [length].
    destruct (isRecordMergeable (parentPathOf (visitPath v)) (visitTag v) m) eqn:Hm.
    + destruct (isRecordMergeable_last _ _ _ Hm) as (mi & l & ->).
      rewrite addRecords_merge_last by done.
      rewrite !length_app in *. cbn [length] in *. lia.
    + rewrite addRecords_merge_new by done. rewrite length_app. cbn [length]. lia.
  - rewrite addRecords_split. intros Hs. by destruct s.
Qed.

Section StrategyFacts.
Context `{Hast}.

(** The calls of a walk depend on the options through the transform and
    the base path only. *)
Lemma calls_options (o o' : option PopulateOptions) (fuel : nat) :
  transformFnOf o = transformFnOf o' ->
  forall (node : Content) (parent : Parent) (path : string),
    calls fuel node parent path o = calls fuel node parent path o'.
Proof.
  intros Hf. induction fuel as [|fuel IH]; intros node parent path; [done|].
  destruct node as [t cs|v|v|]; try done.
  cbn [calls].
  assert (Htr : transformedOf o (element t cs) = transformedOf o' (element t cs)).
  { unfold transformedOf. by rewrite Hf. }
  rewrite Htr.
  destruct (transformedOf o' (element t cs)) as [[t' cs'|v|v|]|]; try done.
  unfold forEach. apply forEachFrom_ext. intros x i s. unfold collecting.
  by rewrite IH.
Qed.

Lemma rehypeLyraCalls_options (o o' : option PopulateOptions) (fuel : nat)
    (tree : Root) :
  transformFnOf o = transformFnOf o' -> basePathOf o = basePathOf o' ->
  rehypeLyraCalls fuel o tree = rehypeLyraCalls fuel o' tree.
Proof.
  intros Hf Hb. unfold rehypeLyraCalls, forEach. apply forEachFrom_ext.
  intros x i s. unfold collecting, rootPath. rewrite Hb.
  by rewrite (calls_options o o' fuel Hf).
Qed.

(** Whatever the transform and the base path, the records of a walk under
    the both strategy are, up to their order, the records of the same walk
    under split together with those under merge; the merged record that is
    last under both is the last record under merge; and merge gives at
    most as many records as split, and none only when split gives none. *)
Theorem both_is_split_and_merge (fuel : nat) (f : option TransformFn)
    (base : option string) (tree : Root) :
  let walk strategy :=
    fst (rehypeLyra fuel [] (Some (mkOptions f (Some strategy) base)) tree) in
  walk both ≡ₚ walk split ++ walk merge
  /\ length (walk both) = length (walk split) + length (walk merge)
  /\ last (walk both) = last (walk merge)
  /\ length (walk merge) <= length (walk split)
  /\ (walk split = [] -> walk merge = []).
Proof.
  intros walk. subst walk. cbn beta. rewrite !rehypeLyra_calls. cbn [fst].
  change (strategyOf (Some (mkOptions f (Some both) base))) with both.
  change (strategyOf (Some (mkOptions f (Some split) base))) with split.
  change (strategyOf (Some (mkOptions f (Some merge) base))) with merge.
  rewrite (rehypeLyraCalls_options (Some (mkOptions f (Some both) base))
             (Some (mkOptions f (Some merge) base))) by done.
  rewrite (rehypeLyraCalls_options (Some (mkOptions f (Some split) base))
             (Some (mkOptions f (Some merge) base))) by done.
  destruct (addVisits_in_step
              (textVisits (fst (rehypeLyraCalls fuel
                                  (Some (mkOptions f (Some merge) base)) tree)))
              [] [] []) as (Hlast & Hperm & Hlen & Hnil); [done..|].
  split; [done|]. split; [|done].
  by rewrite Hperm, length_app.
Qed.

End StrategyFacts.

(** ** What a walk does to the text *)

Lemma concat_cons_nonempty (sep x : string) (l : list string) :
  l <> [] -> String.concat sep (x :: l) = x +:+ sep +:+ String.concat sep l.
Proof. by destruct l. Qed.

Lemma concat_join_middle (sep a b : string) (xs ws : list string) :
  String.concat sep (xs ++ (a +:+ sep +:+ b) :: ws)
  = String.concat sep (xs ++ a :: b :: ws).
Proof.
  induction xs as [|x xs IH].
  - cbn [app]. destruct ws as [|w ws]; [done|].
    rewrite !concat_cons_nonempty by done. by rewrite !app_assoc_string.
  - cbn [app]. rewrite !concat_cons_nonempty by (by destruct xs). by rewrite IH.
Qed.

(** Under merge and split the contents of the records, joined by spaces,
    are the contents there were and the texts of the calls, joined by
    spaces. *)
Lemma addVisits_contents (strategy : MergeStrategy) (vs : list Visit) :
  strategy <> both ->
  forall rs : list DefaultSchemaElement,
    String.concat " " (content <$> addVisits strategy vs rs)
    = String.concat " " ((content <$> rs) ++ (visitValue <$> vs)).
Proof.
  intros Hs. induction vs as [|v vs IH]; intros rs.
  - by rewrite app_nil_r.
  - unfold addVisits. cbn [foldl]. fold (addVisits strategy vs (addVisit strategy rs v)).
    rewrite IH. rewrite fmap_cons. unfold addVisit.
    destruct (isRecordMergeable (parentPathOf (visitPath v)) (visitTag v) rs) eqn:Hm.
    + destruct (isRecordMergeable_last _ _ _ Hm) as (init & l & ->).
      destruct strategy; [| |done].
      * rewrite addRecords_merge_last by done.
        rewrite !fmap_app, <- !app_assoc. cbn [fmap list_fmap app withMoreContent content].
        apply concat_join_middle.
      * rewrite addRecords_split. rewrite !fmap_app, <- !app_assoc. done.
    + destruct strategy; [| |done].
      * rewrite addRecords_merge_new by done.
        rewrite !fmap_app, <- !app_assoc. done.
      * rewrite addRecords_split. rewrite !fmap_app, <- !app_assoc. done.
Qed.

Lemma textsOf_element (t : string) (cs : list Content) :
  textsOf (element t cs) = cs ≫= textsOf.
Proof. simpl. induction cs as [|c cs IH]; [done|]. cbn. by rewrite IH. Qed.

(** As [forEachFrom_collecting_normal], for the texts themselves. *)
Lemma forEachFrom_collecting_texts {A : Type}
    (below : A -> nat -> list Call * Completion) (texts : A -> list string)
    (xs : list A) (i : nat) :
  (forall x j, x ∈ xs ->
     snd (below x j) = Normal /\
     visitValue <$> textVisits (fst (below x j)) = texts x) ->
  snd (forEachFrom (collecting below) xs i []) = Normal /\
  visitValue <$> textVisits (fst (forEachFrom (collecting below) xs i []))
  = xs ≫= texts.
Proof.
  revert i. induction xs as [|x xs IH]; intros i Hxs; [done|].
  rewrite forEachFrom_collecting_cons.
  destruct (Hxs x i) as [-> Hx]; [by left|].
  rewrite forEachFrom_collecting_seen. cbn [fst snd].
  destruct (IH (S i)) as [-> Hrest].
  { intros y j Hy. apply Hxs. by right. }
  split; [done|]. rewrite app_nil_l, textVisits_app, fmap_app, Hx, Hrest.
  done.
Qed.

Section TextFacts.
Context `{Hast}.

Lemma calls_texts (options : option PopulateOptions) (fuel : nat) :
  transformFnOf options = None ->
  forall (node : Content) (parent : Parent) (path : string),
    height node <= fuel ->
    snd (calls fuel node parent path options) = Normal /\
    visitValue <$> textVisits (fst (calls fuel node parent path options))
    = textsOf node.
Proof.
  intros Hnone. induction fuel as [|fuel IH]; intros node parent path Hh.
  { destruct node; simpl in Hh; lia. }
  destruct node as [t cs|v|v|]; try done.
  cbn [calls]. rewrite transformedOf_none by done.
  unfold forEach. rewrite forEachFrom_collecting_seen. cbn [fst snd].
  rewrite height_element in Hh. rewrite textsOf_element.
  destruct (forEachFrom_collecting_texts
              (fun child i => calls fuel child (ofElement (element t cs))
                                (childPath path t i) options)
              textsOf cs 0) as [-> Hn].
  { intros c j Hc. apply IH. apply height_child in Hc. lia. }
  split; [done|]. by rewrite textVisits_app, fmap_app, Hn.
Qed.

(** Under merge and split no text is lost, repeated or moved: the contents
    of the records of a walk, joined by single spaces, are the texts of the
    text nodes it visits, joined by single spaces; without a transform, and
    with fuel for the height of the tree, these are the texts of the text
    nodes of the tree in document order. *)
Theorem walk_keeps_the_text (fuel : nat) (options : option PopulateOptions)
    (tree : Root) :
  strategyOf options <> both ->
  String.concat " " (content <$> fst (rehypeLyra fuel [] options tree))
  = String.concat " "
      (visitValue <$> textVisits (fst (rehypeLyraCalls fuel options tree)))
  /\ (transformFnOf options = None -> rootHeight tree <= fuel ->
      String.concat " " (content <$> fst (rehypeLyra fuel [] options tree))
      = String.concat " " (rootTexts tree)).
Proof.
  intros Hs. rewrite rehypeLyra_calls. cbn [fst].
  rewrite addVisits_contents by done. rewrite fmap_nil, app_nil_l.
  split; [done|]. intros Hnone Hh. f_equal.
  unfold rehypeLyraCalls, forEach, rootTexts.
  apply forEachFrom_collecting_texts.
  intros c j Hc. apply calls_texts; [done|].
  apply height_child in Hc. unfold rootHeight in Hh. lia.
Qed.

End TextFacts.

Lemma walk_keeps_the_text_witness :
  String.concat " "
    (content <$> fst (rehypeLyra (H := Example.lib) 3 [] None Example.itemInBetween))
  = "A X B".
Proof.
  refine (eq_trans
            (proj2 (walk_keeps_the_text (H := Example.lib) 3 None
                      Example.itemInBetween _) eq_refl _) _).
  - discriminate.
  - vm_compute. lia.
  - reflexivity.
Defined.

(** ** Merging goes as far as it can *)

Lemma isRecordMergeable_singleton (path : string) (tag : option string)
    (r : DefaultSchemaElement) :
  isRecordMergeable path tag [r]
  = String.eqb (pathWithoutLastIndex path) (pathWithoutLastIndex (id r))
    && optionStringEqb tag (type r).
Proof. apply (isRecordMergeable_snoc path tag [] r). Qed.

(** Under merge, a call keeps it true that no record could have been
    merged into the one before it. *)
Lemma addRecords_merge_maximal (newContent : string) (tag : option string)
    (path : string) (rs : list DefaultSchemaElement) :
  (forall i r r', rs !! i = Some r -> rs !! S i = Some r' ->
                  isRecordMergeable (id r') (type r') [r] = false) ->
  forall i r r',
    addRecords newContent tag path rs merge !! i = Some r ->
    addRecords newContent tag path rs merge !! S i = Some r' ->
    isRecordMergeable (id r') (type r') [r] = false.
Proof.
  intros Hrs i r r'.
  destruct (isRecordMergeable (parentPathOf path) tag rs) eqn:Hm.
  - destruct (isRecordMergeable_last _ _ _ Hm) as (init & l & ->).
    rewrite addRecords_merge_last by done.
    intros Hi HSi. apply lookup_app_Some in Hi as [Hi|[Hge Hi]].
    + apply lookup_app_Some in HSi as [HSi|[HgeS HSi]].
      * apply (Hrs i); by apply lookup_app_l_Some.
      * apply lookup_lt_Some in Hi as Hlt.
        replace (S i - length init)%nat with 0%nat in HSi by lia.
        injection HSi as <-. cbn [withMoreContent id type].
        apply (Hrs i r l); [by apply lookup_app_l_Some|].
        apply list_lookup_middle. lia.
    + apply lookup_lt_Some in Hi. cbn [length] in Hi.
      apply lookup_lt_Some in HSi. rewrite length_app in HSi. cbn [length] in HSi.
      lia.
  - rewrite addRecords_merge_new by done.
    intros Hi HSi. apply lookup_app_Some in HSi as [HSi|[HgeS HSi]].
    + apply (Hrs i); [|done]. apply lookup_lt_Some in HSi.
      rewrite lookup_app_l in Hi by lia. done.
    + apply lookup_lt_Some in HSi as Hlt. cbn [length] in Hlt.
      assert (S i = length rs) as Hlen by lia.
      replace (S i - length rs)%nat with 0%nat in HSi by lia.
      injection HSi as <-. cbn [newRecordOf id type].
      rewrite lookup_app_l in Hi by lia.
      assert (Hl : last rs = Some r).
      { rewrite last_lookup. rewrite <- Hi. f_equal. lia. }
      destruct (snoc_of_last _ _ Hl) as [init ->].
      rewrite isRecordMergeable_snoc in Hm.
      by rewrite isRecordMergeable_singleton.
Qed.

Lemma addVisits_merge_maximal (vs : list Visit) :
  forall rs : list DefaultSchemaElement,
    (forall i r r', rs !! i = Some r -> rs !! S i = Some r' ->
                    isRecordMergeable (id r') (type r') [r] = false) ->
    forall i r r',
      addVisits merge vs rs !! i = Some r ->
      addVisits merge vs rs !! S i = Some r' ->
      isRecordMergeable (id r') (type r') [r] = false.
Proof.
  induction vs as [|v vs IH]; intros rs Hrs; [done|].
  unfold addVisits. cbn [foldl]. apply IH. unfold addVisit.
  by apply addRecords_merge_maximal.
Qed.

Section MaximalFacts.
Context `{Hast}.

(** Under the merge strategy two records that follow each other in the
    result of a walk always differ in their type or in their id once
    [pathWithoutLastIndex] has stripped it: nothing that could be merged
    into the record before it is left on its own. *)
Theorem merge_is_maximal (fuel : nat) (options : option PopulateOptions)
    (tree : Root) (i : nat) (r r' : DefaultSchemaElement) :
  strategyOf options = merge ->
  fst (rehypeLyra fuel [] options tree) !! i = Some r ->
  fst (rehypeLyra fuel [] options tree) !! S i = Some r' ->
  type r' <> type r
  \/ pathWithoutLastIndex (id r') <> pathWithoutLastIndex (id r).
Proof.
  intros Hs. rewrite rehypeLyra_calls, Hs. cbn [fst]. intros Hi HSi.
  assert (Hm : isRecordMergeable (id r') (type r') [r] = false).
  { eapply (addVisits_merge_maximal _ []); [|exact Hi|exact HSi]. by intros []. }
  rewrite isRecordMergeable_singleton in Hm.
  apply andb_false_iff in Hm as [Hp|Ht].
  - right. by apply String.eqb_neq.
  - left. intros Heq. apply optionStringEqb_eq in Heq. congruence.
Qed.

End MaximalFacts.

Lemma merge_is_maximal_witness :
  type (mkRecord (Some "h2") "X" "root[0].div[1]")
  <> type (mkRecord (Some "p") "A" "root[0].div[0]")
  \/ pathWithoutLastIndex (id (mkRecord (Some "h2") "X" "root[0].div[1]"))
     <> pathWithoutLastIndex (id (mkRecord (Some "p") "A" "root[0].div[0]")).
Proof.
  apply (merge_is_maximal (H := Example.lib) 3 None Example.itemInBetween 0);
    reflexivity.
Defined.

(** ** Walks without a transform, and with one that changes nothing *)

Lemma addRecords_length (newContent : string) (tag : option string)
    (path : string) (rs : list DefaultSchemaElement) (strategy : MergeStrategy) :
  length rs <= length (addRecords newContent tag path rs strategy)
  /\ 0 < length (addRecords newContent tag path rs strategy).
Proof.
  destruct (isRecordMergeable (parentPathOf path) tag rs) eqn:Hm.
  - destruct (isRecordMergeable_last _ _ _ Hm) as (init & l & ->).
    destruct strategy;
      rewrite ?addRecords_merge_last, ?addRecords_split, ?addRecords_both_last
        by done;
      rewrite !length_app; cbn [length]; lia.
  - destruct strategy;
      rewrite ?addRecords_merge_new, ?addRecords_split, ?addRecords_both_new
        by done;
      rewrite !length_app; cbn [length]; lia.
Qed.

Lemma addVisits_length (strategy : MergeStrategy) (vs : list Visit) :
  forall rs : list DefaultSchemaElement,
    length rs <= length (addVisits strategy vs rs)
    /\ (vs <> [] -> 0 < length (addVisits strategy vs rs)).
Proof.
  induction vs as [|v vs IH]; intros rs; [done|].
  unfold addVisits. cbn [foldl].
  destruct (IH (addVisit strategy rs v)) as [Hle _]. unfold addVisits in Hle.
  destruct (addRecords_length (visitValue v) (visitTag v) (visitPath v) rs strategy)
    as [Hle' Hpos].
  unfold addVisit in *. split; [lia|]. intros _. lia.
Qed.

Section PlainWalk.
Context `{Hast}.

(** Without a transform, a node that has no text node below it (a comment,
    a doctype, an element without text) leaves the records as they are,
    whatever the strategy: only text nodes reach [addRecords]. *)
Theorem textless_node_changes_nothing (fuel : nat)
    (options : option PopulateOptions) (node : Content) (parent : Parent)
    (path : string) (records : list DefaultSchemaElement) :
  transformFnOf options = None ->
  countText node = 0 ->
  height node <= fuel ->
  visitChildren fuel node parent path records options = (records, Normal).
Proof.
  intros Hnone Hcount Hh. rewrite visitChildren_calls.
  destruct (calls_no_transform options fuel Hnone node parent path Hh)
    as [-> Hlen].
  rewrite Hcount in Hlen. apply nil_length_inv in Hlen. by rewrite Hlen.
Qed.

Lemma plain_walk_ends_any (fuel : nat) (options : option PopulateOptions)
    (tree : Root) (records : list DefaultSchemaElement) :
  transformFnOf options = None ->
  rootHeight tree <= fuel ->
  snd (rehypeLyra fuel records options tree) = Normal
  /\ visitValue <$> textVisits (fst (rehypeLyraCalls fuel options tree))
     = rootTexts tree
  /\ (fst (rehypeLyra fuel [] options tree) = [] <-> rootTexts tree = []).
Proof.
  intros Hnone Hh.
  assert (Hcalls : snd (rehypeLyraCalls fuel options tree) = Normal /\
                   visitValue <$> textVisits (fst (rehypeLyraCalls fuel options tree))
                   = rootTexts tree).
  { unfold rehypeLyraCalls, forEach, rootTexts.
    apply forEachFrom_collecting_texts.
    intros c j Hc. apply calls_texts; [done|].
    apply height_child in Hc. unfold rootHeight in Hh. lia. }
  destruct Hcalls as [Hn Htexts].
  rewrite !rehypeLyra_calls. cbn [fst snd]. split; [done|]. split; [done|].
  rewrite <- Htexts.
  destruct (textVisits (fst (rehypeLyraCalls fuel options tree))) as [|v vs] eqn:Hvs.
  - done.
  - split; [|done]. intros Hnil.
    destruct (addVisits_length (strategyOf options) (v :: vs) []) as [_ Hpos].
    rewrite Hnil in Hpos. simpl in Hpos. specialize (Hpos ltac:(done)). lia.
Qed.

(** Without a transform a walk cannot throw: with fuel for the height of
    the tree it ends normally under every strategy, its calls of
    [addRecords] are the text nodes of the tree in document order, and,
    started without records, it gives no record exactly when the tree has
    no text node. *)
Theorem plain_walk_ends (fuel : nat) (options : option PopulateOptions)
    (tree : Root) (records : list DefaultSchemaElement) :
  transformFnOf options = None ->
  rootHeight tree <= fuel ->
  snd (rehypeLyra fuel records options tree) = Normal
  /\ visitValue <$> textVisits (fst (rehypeLyraCalls fuel options tree))
     = rootTexts tree
  /\ (fst (rehypeLyra fuel [] options tree) = [] <-> rootTexts tree = []).
Proof. apply plain_walk_ends_any. Qed.

(** A transform that hands back the view it is given changes nothing: the
    walk with it is the walk without a transform, for any collaborators. *)
Lemma visitChildren_identity (f : TransformFn) (strategy : option MergeStrategy)
    (base : option string) (fuel : nat) :
  (forall node, f (prepareNode node) = prepareNode node) ->
  forall (node : Content) (parent : Parent) (path : string)
         (records : list DefaultSchemaElement),
    visitChildren fuel node parent path records
      (Some (mkOptions (Some f) strategy base))
    = visitChildren fuel node parent path records
        (Some (mkOptions None strategy base)).
Proof.
  intros Hf. induction fuel as [|fuel IH]; intros node parent path records;
    [done|].
  destruct node as [t cs|v|v|]; try done.
  cbn [visitChildren].
  assert (Htr : transformedOf (Some (mkOptions (Some f) strategy base)) (element t cs)
                = Some (element t cs)).
  { unfold transformedOf, transformFnOf. cbn. unfold applyTransform.
    rewrite Hf. unfold applyChanges, prepareNode.
    cbn [NodeContent.raw NodeContent.tag NodeContent.content tagNameOf default
         withTagName from_option].
    by rewrite !String.eqb_refl. }
  rewrite Htr. change (transformedOf (Some (mkOptions None strategy base)) (element t cs))
    with (Some (element t cs)).
  unfold forEach. apply forEachFrom_ext. intros x i s. apply IH.
Qed.

Theorem identity_transform_changes_nothing (f : TransformFn)
    (strategy : option MergeStrategy) (base : option string) (fuel : nat)
    (records : list DefaultSchemaElement) (tree : Root) :
  (forall node, f (prepareNode node) = prepareNode node) ->
  rehypeLyra fuel records (Some (mkOptions (Some f) strategy base)) tree
  = rehypeLyra fuel records (Some (mkOptions None strategy base)) tree.
Proof.
  intros Hf. unfold rehypeLyra, forEach. apply forEachFrom_ext.
  intros x i s. by apply visitChildren_identity.
Qed.

End PlainWalk.

Lemma textless_node_changes_nothing_witness :
  visitChildren (H := Example.lib) 2
    (element "head" [element "meta" []; comment "no text"])
    (ofElement (element "html" [])) "root[0].html[0]"
    [mkRecord (Some "p") "A" "root[0]"] None
  = ([mkRecord (Some "p") "A" "root[0]"], Normal).
Proof. apply textless_node_changes_nothing; [reflexivity..|vm_compute; lia]. Defined.

Lemma plain_walk_ends_witness :
  snd (rehypeLyra (H := Example.lib) 4 [] (Example.withStrategy both) Example.titled)
  = Normal.
Proof.
  apply (plain_walk_ends (H := Example.lib) 4 (Example.withStrategy both)
           Example.titled []); [reflexivity|vm_compute; lia].
Defined.

Lemma identity_transform_changes_nothing_witness :
  rehypeLyra (H := Example.lib) 4 []
    (Some (mkOptions (Some (fun node => node)) None None)) Example.heading
  = rehypeLyra (H := Example.lib) 4 [] (Some (mkOptions None None None))
      Example.heading.
Proof. apply identity_transform_changes_nothing. reflexivity. Defined.

(** ** Transforms that break or never end the walk *)

Section BrokenWalk.
Context `{Hast}.

(** When the transform answers, for an element below the root, a [raw]
    that differs from the element's markup and whose fragment does not
    start with an element (it is empty, or starts with text or a comment),
    the walk throws at that element: the records gathered from the
    children before it are kept, and neither the element nor any child of
    the root after it is visited. *)
Theorem walk_stops_at_bad_fragment (fuel : nat)
    (options : option PopulateOptions) (f : TransformFn)
    (before after : list Content) (t : string) (cs : list Content)
    (records : list DefaultSchemaElement) :
  transformFnOf options = Some f ->
  toHtml (element t cs) <> NodeContent.raw (f (prepareNode (element t cs))) ->
  (forall t' cs',
      head (fromHtml (NodeContent.raw (f (prepareNode (element t cs)))))
      <> Some (element t' cs')) ->
  snd (rehypeLyra (S fuel) records options (root before)) = Normal ->
  rehypeLyra (S fuel) records options (root (before ++ element t cs :: after))
  = (fst (rehypeLyra (S fuel) records options (root before)), TypeError).
Proof.
  intros Hf Hraw Hhead. unfold rehypeLyra, forEach. cbn [rootChildren].
  rewrite forEachFrom_app.
  rewrite (forEachFrom_ext
             (fun child i records0 =>
                visitChildren (S fuel) child
                  (ofRoot (root (before ++ element t cs :: after)))
                  (rootPath options i) records0 options)
             (fun child i records0 =>
                visitChildren (S fuel) child (ofRoot (root before))
                  (rootPath options i) records0 options))
    by (intros; by apply visitChildren_parent).
  destruct (forEachFrom _ before 0 records) as [records' c]. cbn [fst snd].
  intros ->. cbn [forEachFrom visitChildren].
  unfold transformedOf. rewrite Hf. unfold applyTransform, applyChanges.
  apply String.eqb_neq in Hraw. rewrite Hraw. cbn [negb].
  destruct (head (fromHtml (NodeContent.raw (f (prepareNode (element t cs))))))
    as [[t' cs'|v|v|]|] eqn:Hh; try done.
  by destruct (Hhead t' cs').
Qed.

(** A transform that answers the same [raw] for every element never lets
    the walk end once it reaches an element that serializes differently,
    if the fragment of [raw] starts with an element whose first child is an
    element that serializes differently too: each visit replaces the
    element by that fragment and visits the child, which is replaced in
    turn, whatever the depth allowed. *)
Theorem constant_raw_never_ends (options : option PopulateOptions)
    (f : TransformFn) (raw t : string) (child : Content) (rest : list Content) :
  transformFnOf options = Some f ->
  (forall view, NodeContent.raw (f view) = raw) ->
  head (fromHtml raw) = Some (element t (child :: rest)) ->
  tagNameOf child <> None ->
  toHtml child <> raw ->
  forall (fuel : nat) (node : Content) (parent : Parent) (path : string)
         (records : list DefaultSchemaElement),
    tagNameOf node <> None ->
    toHtml node <> raw ->
    visitChildren fuel node parent path records options = (records, OutOfFuel).
Proof.
  intros Hf Hconst Hhead Hchild Hchildraw.
  induction fuel as [|fuel IH]; intros node parent path records Hnode Hraw;
    [done|].
  destruct node as [t0 cs0|v|v|]; try done.
  cbn [visitChildren]. unfold transformedOf. rewrite Hf.
  unfold applyTransform, applyChanges. rewrite Hconst.
  apply String.eqb_neq in Hraw. rewrite Hraw. cbn [negb]. rewrite Hhead.
  unfold forEach. cbn [forEachFrom]. by rewrite IH.
Qed.

End BrokenWalk.

Lemma walk_stops_at_bad_fragment_witness :
  rehypeLyra (H := Example.lib) 3 []
    (Some (mkOptions
             (Some (Example.onH1 (fun node =>
                      NodeContent.mk "h1" "" (NodeContent.content node))))
             None None))
    (root [element "p" [text "A"]; element "h1" [text "Heading"];
           element "p" [text "B"]])
  = ([mkRecord (Some "p") "A" "root[0]"], TypeError).
Proof.
  refine (eq_trans
            (walk_stops_at_bad_fragment (H := Example.lib) 2
               (Some (mkOptions
                        (Some (Example.onH1 (fun node =>
                                 NodeContent.mk "h1" "" (NodeContent.content node))))
                        None None))
               (Example.onH1 (fun node =>
                  NodeContent.mk "h1" "" (NodeContent.content node)))
               [element "p" [text "A"]] [element "p" [text "B"]]
               "h1" [text "Heading"] [] eq_refl _ _ eq_refl) _).
  - vm_compute. discriminate.
  - intros t' cs'. vm_compute. discriminate.
  - reflexivity.
Defined.

Lemma constant_raw_never_ends_witness :
  visitChildren (H := Example.lib) 50 (element "h1" [text "Heading"])
    (ofRoot (root [])) "root[0]" []
    (Some (mkOptions
             (Some (fun _ => NodeContent.mk "div" "<div><p>Hello</p></div>" ""))
             None None))
  = ([], OutOfFuel).
Proof.
  apply (constant_raw_never_ends (H := Example.lib)
           (Some (mkOptions
                    (Some (fun _ => NodeContent.mk "div" "<div><p>Hello</p></div>" ""))
                    None None))
           (fun _ => NodeContent.mk "div" "<div><p>Hello</p></div>" "")
           "<div><p>Hello</p></div>" "div" (element "p" [text "Hello"]) []).
  - reflexivity.
  - reflexivity.
  - reflexivity.
  - discriminate.
  - vm_compute. discriminate.
  - discriminate.
  - vm_compute. discriminate.
Defined.

(** ** Where the ids come from *)

Section Namespace.
Context `{Hast}.

(** The path of every call of a visit extends the path of the visit. *)
Lemma calls_path_extends (options : option PopulateOptions) (fuel : nat) :
  forall (node : Content) (parent : Parent) (path : string) (c : Call),
    c ∈ fst (calls fuel node parent path options) ->
    exists rest, callPath c = path +:+ rest.
Proof.
  induction fuel as [|fuel IH]; intros node parent path c.
  { intros Hc. by apply elem_of_nil in Hc. }
  assert (Hhere : c ∈ [mkCall node parent path] -> exists rest, callPath c = path +:+ rest).
  { intros ->%list_elem_of_singleton. exists "". by rewrite string_app_nil_r. }
  destruct node as [t cs|v|v|]; try done.
  cbn [calls].
  destruct (transformedOf options (element t cs)) as [[t' cs'|v|v|]|]; try done.
  unfold forEach. intros Hc.
  destruct (forEachFrom_collecting_elem _ _ _ _ _ Hc)
    as [Hc'|(j & child & _ & Hcj & _)]; [by apply Hhere|].
  destruct (IH _ _ _ _ Hcj) as [rest ->]. unfold childPath.
  eexists. rewrite !app_assoc_string. reflexivity.
Qed.

(** The paths of the calls of a walk start with the base path and
    [root[]. *)
Lemma call_path_rooted (fuel : nat) (options : option PopulateOptions)
    (tree : Root) (c : Call) :
  c ∈ fst (rehypeLyraCalls fuel options tree) ->
  exists rest, callPath c = basePathOf options +:+ "root[" +:+ rest.
Proof.
  intros Hc. unfold rehypeLyraCalls, forEach in Hc.
  destruct (forEachFrom_collecting_elem _ _ _ _ _ Hc)
    as [Hnil|(j & child & _ & Hcj & _)]; [by apply elem_of_nil in Hnil|].
  destruct (calls_path_extends _ _ _ _ _ _ Hcj) as [rest ->].
  unfold rootPath. eexists. rewrite !app_assoc_string. reflexivity.
Qed.

Lemma record_id_rooted (fuel : nat) (options : option PopulateOptions)
    (tree : Root) (r : DefaultSchemaElement) (t : string) :
  r ∈ fst (rehypeLyra fuel [] options tree) ->
  type r = Some t -> hasChar dot t = false ->
  exists rest, id r = basePathOf options +:+ "root[" +:+ rest.
Proof.
  intros Hr Ht Hdot.
  destruct (record_of_text_call _ _ _ _ Hr) as (c & value & Hc & Hv & Htype & Hid).
  rewrite Htype in Ht.
  destruct (record_id_is_parent_path fuel options tree c value t Hc Hv Ht Hdot)
    as (p & i & Hp & _ & _ & _ & Hnew).
  unfold newRecordOf in Hnew. injection Hnew as Hnew.
  rewrite Hid, Hnew. by apply (call_path_rooted fuel options tree p).
Qed.

(** Every record of a walk stems from a text node the walk visits: its
    type is the tag of the parent of that node and its id is the path of
    that node cut before its last dot; the paths all start with the base
    path and [root[]; so the id of a record whose type is a tag without a
    dot starts with the base path and [root[]. *)
Theorem record_ids_are_namespaced (fuel : nat) (options : option PopulateOptions)
    (tree : Root) (r : DefaultSchemaElement) :
  r ∈ fst (rehypeLyra fuel [] options tree) ->
  (exists (c : Call) (value rest : string),
      c ∈ fst (rehypeLyraCalls fuel options tree) /\
      callNode c = text value /\
      type r = parentTagName (callParent c) /\
      id r = parentPathOf (callPath c) /\
      callPath c = default "" (options ≫= basePath) +:+ "root[" +:+ rest)
  /\ (forall t, type r = Some t -> hasChar dot t = false ->
        exists rest, id r = default "" (options ≫= basePath) +:+ "root[" +:+ rest).
Proof.
  intros Hr. split.
  - destruct (record_of_text_call _ _ _ _ Hr) as (c & value & Hc & Hv & Htype & Hid).
    destruct (call_path_rooted fuel options tree c Hc) as [rest Hrest].
    by exists c, value, rest.
  - intros t Ht Hdot. by apply (record_id_rooted fuel options tree r t).
Qed.

(** [populateFromFile] fails when the file cannot be read; it resolves with
    the file type, inserting nothing, when what follows the last dot of the
    name is neither [md] nor [html] (so for a name in upper case, or
    without a dot); and when it inserts records, the file type is [md] or
    [html] and the id of every record whose type is a tag without a dot
    starts with the file name, a slash and [root[], whatever base path the
    caller's options carry. *)
Theorem populateFromFile_outcomes (readFile : string -> option string)
    (fuel : nat) (filename : string) (options : option PopulateOptions) :
  (readFile filename = None ->
   populateFromFile readFile fuel filename options = Rejected)
  /\ (forall data,
         readFile filename = Some data ->
         fileTypeOf filename <> "md" -> fileTypeOf filename <> "html" ->
         populateFromFile readFile fuel filename options
         = ResolvedWith (fileTypeOf filename))
  /\ (forall records,
         populateFromFile readFile fuel filename options = InsertBatch records ->
         (fileTypeOf filename = "md" \/ fileTypeOf filename = "html")
         /\ forall r t,
              r ∈ records -> type r = Some t -> hasChar dot t = false ->
              exists rest, id r = filename +:+ "/" +:+ "root[" +:+ rest).
Proof.
  unfold populateFromFile. split; [|split].
  - by intros ->.
  - intros data -> Hmd Hhtml. unfold populate.
    apply String.eqb_neq in Hmd. apply String.eqb_neq in Hhtml.
    by rewrite Hmd, Hhtml.
  - intros records. destruct (readFile filename) as [data|]; [|done].
    set (options' := Some (mkOptions _ _ _)). unfold populate.
    assert (Hids : forall tree r t,
               r ∈ fst (rehypeLyra fuel [] options' tree) ->
               type r = Some t -> hasChar dot t = false ->
               exists rest, id r = filename +:+ "/" +:+ "root[" +:+ rest).
    { intros tree r t Hr Ht Hdot.
      destruct (record_id_rooted fuel options' tree r t Hr Ht Hdot)
        as [rest Hrest].
      exists rest. rewrite Hrest. cbn. by rewrite app_assoc_string. }
    destruct (String.eqb_spec (fileTypeOf filename) "md") as [Hmd|Hmd].
    + destruct (rehypeLyra fuel [] options' (markdownTree data)) as [rs []] eqn:Hwalk;
        try done.
      intros [= <-]. split; [by left|]. intros r t Hr.
      apply (Hids (markdownTree data)). by rewrite Hwalk.
    + destruct (String.eqb_spec (fileTypeOf filename) "html") as [Hhtml|Hhtml];
        [|done].
      destruct (rehypeLyra fuel [] options' (htmlTree data)) as [rs []] eqn:Hwalk;
        try done; intros [= <-]; (split; [by right|]); intros r t Hr;
        apply (Hids (htmlTree data)); by rewrite Hwalk.
Qed.

End Namespace.

Lemma record_ids_are_namespaced_witness :
  exists rest,
    id (mkRecord (Some "title") "Test"
          "tests/fixtures/index.html/root[1].html[0].head[1]")
    = "tests/fixtures/index.html/" +:+ "root[" +:+ rest.
Proof.
  refine (proj2 (record_ids_are_namespaced (H := Example.lib) 4
                   (Some (mkOptions None None (Some "tests/fixtures/index.html/")))
                   Example.titled
                   (mkRecord (Some "title") "Test"
                      "tests/fixtures/index.html/root[1].html[0].head[1]") _)
            "title" eq_refl eq_refl).
  vm_compute. apply list_elem_of_here.
Defined.

Lemma populateFromFile_outcomes_witness :
  let H := Example.hast [] [("<title>Test</title>", Example.titled)] in
  let readFile := fun name : string =>
    if String.eqb name "missing.html" then None else Some "<title>Test</title>" in
  populateFromFile readFile 4 "missing.html" None = Rejected
  /\ populateFromFile readFile 4 "notes.HTML" None = ResolvedWith "HTML"
  /\ (exists rest,
         id (mkRecord (Some "title") "Test" "index.html/root[1].html[0].head[1]")
         = "index.html" +:+ "/" +:+ "root[" +:+ rest).
Proof.
  intros H readFile. split; [|split].
  - apply (proj1 (populateFromFile_outcomes readFile 4 "missing.html" None)).
    reflexivity.
  - apply (proj1 (proj2 (populateFromFile_outcomes readFile 4 "notes.HTML" None))
             "<title>Test</title>"); [reflexivity|discriminate..].
  - refine (proj2 (proj2 (proj2 (populateFromFile_outcomes readFile 4 "index.html" None))
                     [mkRecord (Some "title") "Test" "index.html/root[1].html[0].head[1]"]
                     eq_refl)
              (mkRecord (Some "title") "Test" "index.html/root[1].html[0].head[1]")
              "title" _ eq_refl eq_refl).
    apply list_elem_of_here.
Defined.

(** ** The order of the records under both *)

(** One more call keeps it true that, the last record apart, the records
    under both hold the records under split and the records under merge in
    their order. *)
Lemma addVisits_interleaved (vs : list Visit) :
  forall (bi mi s : list DefaultSchemaElement) (l : DefaultSchemaElement),
    s `sublist_of` bi -> mi `sublist_of` bi ->
    addVisits split vs s `sublist_of` addVisits both vs (bi ++ [l])
    /\ addVisits merge vs (mi ++ [l]) `sublist_of` addVisits both vs (bi ++ [l]).
Proof.
  induction vs as [|v vs IH]; intros bi mi s l Hs Hm.
  - split; [by apply sublist_inserts_r|]. by apply sublist_app.
  - unfold addVisits. cbn [foldl]. unfold addVisit. rewrite addRecords_split.
    destruct (isRecordMergeable (parentPathOf (visitPath v)) (visitTag v) (mi ++ [l]))
      eqn:Hmm.
    + pose proof Hmm as Hb.
      rewrite (isRecordMergeable_last_eq _ _ (mi ++ [l]) (bi ++ [l])) in Hb
        by (by rewrite !last_snoc).
      rewrite addRecords_merge_last, addRecords_both_last by done.
      change (bi ++ [newRecordOf (visitValue v) (visitTag v) (visitPath v);
                     withMoreContent (visitValue v) l])
        with (bi ++ [newRecordOf (visitValue v) (visitTag v) (visitPath v)]
                 ++ [withMoreContent (visitValue v) l]).
      rewrite (app_assoc bi). apply IH.
      * by apply sublist_app.
      * by apply sublist_inserts_r.
    + pose proof Hmm as Hb.
      rewrite (isRecordMergeable_last_eq _ _ (mi ++ [l]) (bi ++ [l])) in Hb
        by (by rewrite !last_snoc).
      rewrite addRecords_merge_new, addRecords_both_new by done.
      change ((bi ++ [l]) ++ [newRecordOf (visitValue v) (visitTag v) (visitPath v);
                              newRecordOf (visitValue v) (visitTag v) (visitPath v)])
        with ((bi ++ [l]) ++ [newRecordOf (visitValue v) (visitTag v) (visitPath v)]
                 ++ [newRecordOf (visitValue v) (visitTag v) (visitPath v)]).
      rewrite (app_assoc (bi ++ [l])). apply IH.
      * apply sublist_app; [|done]. by apply sublist_inserts_r.
      * apply sublist_inserts_r. by apply sublist_app.
Qed.

Section BothOrder.
Context `{Hast}.

(** Under the both strategy nothing is reordered with respect to the other
    two strategies: the records of a walk under split, and those under
    merge, appear among its records under both in the same order. *)
Theorem both_keeps_both_orders (fuel : nat) (f : option TransformFn)
    (base : option string) (tree : Root) :
  let walk strategy :=
    fst (rehypeLyra fuel [] (Some (mkOptions f (Some strategy) base)) tree) in
  walk split `sublist_of` walk both /\ walk merge `sublist_of` walk both.
Proof.
  intros walk. subst walk. cbn beta. rewrite !rehypeLyra_calls. cbn [fst].
  change (strategyOf (Some (mkOptions f (Some both) base))) with both.
  change (strategyOf (Some (mkOptions f (Some split) base))) with split.
  change (strategyOf (Some (mkOptions f (Some merge) base))) with merge.
  rewrite (rehypeLyraCalls_options (Some (mkOptions f (Some both) base))
             (Some (mkOptions f (Some merge) base))) by done.
  rewrite (rehypeLyraCalls_options (Some (mkOptions f (Some split) base))
             (Some (mkOptions f (Some merge) base))) by done.
  destruct (textVisits _) as [|v vs]; [done|].
  unfold addVisits. cbn [foldl]. unfold addVisit.
  rewrite addRecords_split, addRecords_merge_new, addRecords_both_new by done.
  apply (addVisits_interleaved vs
           [newRecordOf (visitValue v) (visitTag v) (visitPath v)] []
           [newRecordOf (visitValue v) (visitTag v) (visitPath v)]);
    [done|apply sublist_nil_l].
Qed.

(** Without a transform [populate] cannot fail in the walk of a Markdown
    input: with fuel for the height of the tree the pipeline gives, it
    hands to [insertBatch] the records of the walk of that tree, started
    without records; there are none exactly when the tree has no text
    node. *)
Theorem populate_plain_markdown (fuel : nat) (data : string)
    (options : option PopulateOptions) :
  transformFnOf options = None ->
  rootHeight (markdownTree data) <= fuel ->
  populate fuel data "md" options
  = InsertBatch (fst (rehypeLyra fuel [] options (markdownTree data)))
  /\ (fst (rehypeLyra fuel [] options (markdownTree data)) = []
      <-> rootTexts (markdownTree data) = []).
Proof.
  intros Hnone Hh.
  destruct (plain_walk_ends_any fuel options (markdownTree data) [] Hnone Hh)
    as (Hn & _ & Hnil).
  split; [|done]. unfold populate. cbn [String.eqb Ascii.eqb Bool.eqb].
  destruct (rehypeLyra fuel [] options (markdownTree data)) as [rs c].
  cbn [fst snd] in *. by subst c.
Qed.

End BothOrder.

Lemma populate_plain_markdown_witness :
  populate (H := Example.hast [] [("# Title", Example.heading)]) 4 "# Title" "md" None
  = InsertBatch [mkRecord (Some "h1") "Heading" "root[0].html[1].body[0]"].
Proof.
  refine (eq_trans
            (proj1 (populate_plain_markdown
                      (H := Example.hast [] [("# Title", Example.heading)])
                      4 "# Title" None eq_refl _)) _).
  - vm_compute. lia.
  - reflexivity.
Defined.
